(** * ChessVar: a shallow embedding of the atomic-chess rules engine

    The Python class [ChessVar] (src/ChessVar.py) is embedded function by
    function.  The object's three mutable attributes form the record
    [state]; methods that only read take the state and return an
    [outcome]; methods that write live in the state-and-exception monad
    [M], so that the state left behind by a raised exception is visible.
    The [print] calls of [make_move] produce console output only and are
    not modelled. *)

From Stdlib Require Import ZArith String Ascii Bool Lia DecimalString.
From stdpp Require Import base tactics option list.

Local Open Scope Z_scope.

(** ** Python primitives *)

Module Py.

Inductive exn : Type := ValueError | IndexError | TypeError | KeyError.

(** The result of evaluating a Python expression: a value, a raised
    exception, or (for the fuel-bounded [while] loop only) exhaustion
    of the fuel. *)
Inductive outcome (A : Type) : Type :=
| Ok (a : A)
| Raise (e : exn)
| OutOfFuel.
Arguments Ok {A} a.
Arguments Raise {A} e.
Arguments OutOfFuel {A}.

Definition bind {A B} (m : outcome A) (k : A -> outcome B) : outcome B :=
  match m with
  | Ok a => k a
  | Raise e => Raise e
  | OutOfFuel => OutOfFuel
  end.

(** [a and b] / [a or b] on booleans, evaluated left to right with
    short-circuit. *)
Definition and_then (a b : outcome bool) : outcome bool :=
  bind a (fun x => if x then b else Ok false).
Definition or_else (a b : outcome bool) : outcome bool :=
  bind a (fun x => if x then Ok true else b).

(** [l[i]] with Python's negative indices. *)
Definition norm_index {A} (l : list A) (i : Z) : Z :=
  if i <? 0 then i + Z.of_nat (length l) else i.

Definition getitem {A} (l : list A) (i : Z) : outcome A :=
  let j := norm_index l i in
  if j <? 0 then Raise IndexError
  else match l !! Z.to_nat j with
       | Some x => Ok x
       | None => Raise IndexError
       end.

(** [l[i] = x] *)
Definition setitem {A} (l : list A) (i : Z) (x : A) : outcome (list A) :=
  let j := norm_index l i in
  if (j <? 0) || (Z.of_nat (length l) <=? j) then Raise IndexError
  else Ok (<[Z.to_nat j := x]> l).

(** [enumerate(l)] *)
Fixpoint enumerate_from {A} (i : Z) (l : list A) : list (Z * A) :=
  match l with
  | [] => []
  | x :: l' => (i, x) :: enumerate_from (i + 1) l'
  end.
Definition enumerate {A} (l : list A) : list (Z * A) := enumerate_from 0 l.

(** A [dict] with one-character keys, as an association list. *)
Fixpoint dict_get {V} (d : list (ascii * V)) (k : ascii) : outcome V :=
  match d with
  | [] => Raise KeyError
  | (k', v) :: d' => if Ascii.eqb k' k then Ok v else dict_get d' k
  end.

(** One-character strings are values of [ascii], read as the code
    points U+0000..U+00FF.  Python strings with characters beyond
    U+00FF are not values of the model; a statement about all strings
    is a statement about the strings over this range. *)
Definition code (c : ascii) : Z := Z.of_N (N_of_ascii c).

(** [c.isdigit()]: the characters with Numeric_Type Decimal or Digit.
    Below U+0100 these are '0'..'9' and the superscripts U+00B2,
    U+00B3 and U+00B9. *)
Definition isdigit (c : ascii) : bool :=
  ((48 <=? code c) && (code c <=? 57))
  || (code c =? 178) || (code c =? 179) || (code c =? 185).

(** [int(c)] for a one-character string: only the decimal digits
    convert; every other character raises ValueError. *)
Definition int (c : ascii) : outcome Z :=
  if (48 <=? code c) && (code c <=? 57) then Ok (code c - 48)
  else Raise ValueError.

(** The case methods are applied to board cells only, whose alphabet
    is ".PRNBQKprnbqk"; they are given on the ASCII letters. *)
Definition isupper (c : ascii) : bool := (65 <=? code c) && (code c <=? 90).
Definition islower (c : ascii) : bool := (97 <=? code c) && (code c <=? 122).
Definition upper (c : ascii) : ascii :=
  if islower c then ascii_of_N (Z.to_N (code c - 32)) else c.
Definition lower (c : ascii) : ascii :=
  if isupper c then ascii_of_N (Z.to_N (code c + 32)) else c.

End Py.

Import Py.

Notation "'let*' x ':=' m 'in' k" := (Py.bind m (fun x => k))
  (at level 10, x pattern, m at level 100, k at level 200).

Notation "a =c? b" := (Ascii.eqb a b) (at level 70, no associativity).

(** ** The object state *)

Inductive color : Type := white | black.
Inductive game_state : Type := UNFINISHED | WHITE_WON | BLACK_WON.

Definition color_eqb (a b : color) : bool :=
  match a, b with
  | white, white | black, black => true
  | _, _ => false
  end.

Definition game_state_eqb (a b : game_state) : bool :=
  match a, b with
  | UNFINISHED, UNFINISHED | WHITE_WON, WHITE_WON | BLACK_WON, BLACK_WON => true
  | _, _ => false
  end.

Abbreviation board := (list (list ascii)).

Record state : Type := mkState {
  _board : board;
  _turn : color;
  _current_game_state : game_state
}.

Definition with_board (st : state) (b : board) : state :=
  mkState b (_turn st) (_current_game_state st).
Definition with_turn (st : state) (t : color) : state :=
  mkState (_board st) t (_current_game_state st).
Definition with_game_state (st : state) (g : game_state) : state :=
  mkState (_board st) (_turn st) g.

(** [self._columns] and [self._columns_indexes] are set once in
    [__init__] and never written again. *)
Definition _columns : list ascii :=
  ["a"; "b"; "c"; "d"; "e"; "f"; "g"; "h"]%char.
Definition _columns_indexes : list (ascii * Z) :=
  map (fun p => (snd p, fst p)) (enumerate _columns).

(** [b[r][c]] and [b[r][c] = v].  The rows are distinct list objects
    (built by a nested comprehension), so writing one row leaves the
    others as they are. *)
Definition board_get (b : board) (r c : Z) : outcome ascii :=
  let* row := getitem b r in getitem row c.

Definition board_set (b : board) (r c : Z) (v : ascii) : outcome board :=
  let* row := getitem b r in
  let* row' := setitem row c v in
  setitem b r row'.

(** ** State-and-exception monad for the methods that write *)

Definition M (A : Type) : Type := state -> outcome A * state.

Definition ret {A} (a : A) : M A := fun st => (Ok a, st).
Definition bindM {A B} (m : M A) (k : A -> M B) : M B :=
  fun st =>
    match m st with
    | (Ok a, st') => k a st'
    | (Raise e, st') => (Raise e, st')
    | (OutOfFuel, st') => (OutOfFuel, st')
    end.
Definition read {A} (f : state -> outcome A) : M A := fun st => (f st, st).
Definition write_cell (r c : Z) (v : ascii) : M unit :=
  fun st =>
    match board_set (_board st) r c v with
    | Ok b' => (Ok tt, with_board st b')
    | Raise e => (Raise e, st)
    | OutOfFuel => (OutOfFuel, st)
    end.
Definition write_game_state (g : game_state) : M unit :=
  fun st => (Ok tt, with_game_state st g).
Definition write_turn (t : color) : M unit :=
  fun st => (Ok tt, with_turn st t).

Notation "'let!' x ':=' m 'in' k" := (bindM m (fun x => k))
  (at level 10, x pattern, m at level 100, k at level 200).
Notation "m ;;; k" := (bindM m (fun _ => k))
  (at level 100, k at level 200, right associativity).

(** [for x in l: body(x)] *)
Fixpoint for_each {A} (l : list A) (body : A -> M unit) : M unit :=
  match l with
  | [] => ret tt
  | x :: l' => body x ;;; for_each l' body
  end.

(** ** __init__ and initialize_board *)

Definition initialize_board : outcome board :=
  let blank : board := repeat (repeat "."%char 8) 8 in
  let special_pieces := list_ascii_of_string "RNBQKBNR" in
  fold_left
    (fun acc ix =>
       let '(i, x) := ix in
       let* b0 := acc in
       let* b1 := board_set b0 0 i (lower x) in
       let* b2 := board_set b1 1 i "p"%char in
       let* b3 := board_set b2 6 i "P"%char in
       board_set b3 7 i x)
    (enumerate special_pieces) (Ok blank).

Definition init : outcome state :=
  let* b := initialize_board in Ok (mkState b white UNFINISHED).

(** ** position_index *)

(** The returned pair is [(None, None)] or two integers: [None] stands
    for the former. *)
Definition position_index (position : string) : outcome (option (Z * Z)) :=
  if negb (Nat.eqb (String.length position) 2) then Ok None
  else
    match String.get 0 position, String.get 1 position with
    | Some p0, Some p1 =>
        if negb (existsb (Ascii.eqb p0) _columns) || negb (isdigit p1)
        then Ok None
        else
          let col := p0 in
          let row := p1 in
          let* col_index := dict_get _columns_indexes col in
          let* n := int row in
          let row_index := 8 - n in
          if negb ((0 <=? col_index) && (col_index <? 8)
                   && (0 <=? row_index) && (row_index <? 8))
          then Ok None
          else Ok (Some (row_index, col_index))
    | _, _ => Raise IndexError
    end.

(** ** clear_path *)

(** The [while] loop of [clear_path]; one unit of fuel per iteration. *)
Fixpoint clear_path_loop (fuel : nat) (b : board)
    (current_row current_col to_row to_col row_step col_step : Z)
    : outcome bool :=
  if negb (current_row =? to_row) || negb (current_col =? to_col) then
    match fuel with
    | O => OutOfFuel
    | S fuel' =>
        let* x := board_get b current_row current_col in
        if negb (x =c? ".") then Ok false
        else clear_path_loop fuel' b
               (current_row + row_step) (current_col + col_step)
               to_row to_col row_step col_step
    end
  else Ok true.

(** Unpacking the pair returned by [position_index]: arithmetic or an
    ordering comparison on [None] raises TypeError. *)
Definition clear_path_fuel (fuel : nat) (b : board)
    (from_position to_position : string) : outcome bool :=
  let* f := position_index from_position in
  let* t := position_index to_position in
  match f, t with
  | Some (from_row, from_col), Some (to_row, to_col) =>
      let row_step :=
        if from_row =? to_row then 0 else if to_row >? from_row then 1 else -1 in
      let col_step :=
        if from_col =? to_col then 0 else if to_col >? from_col then 1 else -1 in
      clear_path_loop fuel b (from_row + row_step) (from_col + col_step)
        to_row to_col row_step col_step
  | _, _ => Raise TypeError
  end.

(** Sixteen iterations leave every index range of an 8x8 board, negative
    indices included. *)
Definition path_fuel : nat := 16.
Definition clear_path : board -> string -> string -> outcome bool :=
  clear_path_fuel path_fuel.

(** ** The per-piece rules *)

Definition pawn_move (b : board) (from_row from_col to_row to_col : Z)
    : outcome bool :=
  let* piece := board_get b from_row from_col in
  let '(direction, start_row, opponent_piece) :=
    if isupper piece then (-1, 6, islower) else (1, 1, isupper) in
  if to_col =? from_col then
    let* one :=
      and_then (Ok (to_row =? from_row + direction))
               (let* x := board_get b to_row to_col in Ok (x =c? ".")) in
    if one then Ok true
    else
      let* two :=
        and_then (Ok (from_row =? start_row))
          (and_then (Ok (to_row =? from_row + 2 * direction))
             (and_then
                (let* x := board_get b (from_row + direction) to_col in
                 Ok (x =c? "."))
                (let* x := board_get b to_row to_col in Ok (x =c? ".")))) in
      if two then Ok true else Ok false
  else if (Z.abs (to_col - from_col) =? 1) && (to_row =? from_row + direction)
  then
    let* hit :=
      and_then (let* x := board_get b to_row to_col in Ok (negb (x =c? ".")))
               (let* x := board_get b to_row to_col in Ok (opponent_piece x)) in
    if hit then Ok true else Ok false
  else Ok false.

Definition rook_move (b : board) (from_position to_position : string)
    : outcome bool :=
  let* f := position_index from_position in
  let* t := position_index to_position in
  match f, t with
  | Some (from_row, from_col), Some (to_row, to_col) =>
      if (from_row =? to_row) || (from_col =? to_col)
      then clear_path b from_position to_position
      else Ok false
  | None, None => clear_path b from_position to_position
  | _, _ => Ok false
  end.

Definition knight_move (from_position to_position : string) : outcome bool :=
  let* f := position_index from_position in
  let* t := position_index to_position in
  match f, t with
  | Some (from_row, from_col), Some (to_row, to_col) =>
      let row_diff := Z.abs (to_row - from_row) in
      let col_diff := Z.abs (to_col - from_col) in
      Ok (existsb (fun p => (fst p =? row_diff) && (snd p =? col_diff))
            [(2, 1); (1, 2)])
  | _, _ => Raise TypeError
  end.

Definition bishop_move (b : board) (from_position to_position : string)
    : outcome bool :=
  let* f := position_index from_position in
  let* t := position_index to_position in
  match f, t with
  | Some (from_row, from_col), Some (to_row, to_col) =>
      if Z.abs (to_row - from_row) =? Z.abs (to_col - from_col)
      then clear_path b from_position to_position
      else Ok false
  | _, _ => Raise TypeError
  end.

Definition queen_move (b : board) (from_position to_position : string)
    : outcome bool :=
  or_else (rook_move b from_position to_position)
          (bishop_move b from_position to_position).

Definition king_move (from_position to_position : string) : outcome bool :=
  let* f := position_index from_position in
  let* t := position_index to_position in
  match f, t with
  | Some (from_row, from_col), Some (to_row, to_col) =>
      Ok ((Z.abs (to_row - from_row) <=? 1) && (Z.abs (to_col - from_col) <=? 1))
  | _, _ => Raise TypeError
  end.

(** ** valid_move *)

Definition valid_move (st : state) (from_position to_position : string)
    : outcome bool :=
  let* f := position_index from_position in
  let* t := position_index to_position in
  match f, t with
  | Some (from_row, from_col), Some (to_row, to_col) =>
      let* piece := board_get (_board st) from_row from_col in
      let* target := board_get (_board st) to_row to_col in
      if piece =c? "." then Ok false
      else if (color_eqb (_turn st) white && islower piece)
              || (color_eqb (_turn st) black && isupper piece)
      then Ok false
      else if (color_eqb (_turn st) white && isupper target)
              || (color_eqb (_turn st) black && islower target)
      then Ok false
      else
        let piece_type := upper piece in
        match piece_type with
        | "P"%char => pawn_move (_board st) from_row from_col to_row to_col
        | "R"%char => rook_move (_board st) from_position to_position
        | "N"%char => knight_move from_position to_position
        | "B"%char => bishop_move (_board st) from_position to_position
        | "Q"%char => queen_move (_board st) from_position to_position
        | "K"%char => king_move from_position to_position
        | _ => Ok false
        end
  | _, _ => Ok false
  end.

(** ** move_piece, explode_capture, make_move *)

(** Indexing a list with [None] raises TypeError. *)
Definition squares (from_position to_position : string)
    : state -> outcome ((Z * Z) * (Z * Z)) :=
  fun _ =>
    let* f := position_index from_position in
    let* t := position_index to_position in
    match f, t with
    | Some a, Some b => Ok (a, b)
    | _, _ => Raise TypeError
    end.

Definition move_piece (from_position to_position : string) : M unit :=
  let! sq := read (squares from_position to_position) in
  let '((from_row, from_col), (to_row, to_col)) := sq in
  let! x := read (fun st => board_get (_board st) from_row from_col) in
  write_cell to_row to_col x ;;;
  write_cell from_row from_col "."%char.

(** The body of the inner loop of [explode_capture], at the square
    [(r, c) = (row + dr, col + dc)]. *)
Definition explode_square (r c : Z) : M unit :=
  if (0 <=? r) && (r <? 8) && (0 <=? c) && (c <? 8) then
    let! piece := read (fun st => board_get (_board st) r c) in
    if negb (piece =c? ".") then
      (if upper piece =c? "K"
       then write_game_state (if islower piece then BLACK_WON else WHITE_WON)
       else ret tt) ;;;
      write_cell r c "."%char
    else ret tt
  else ret tt.

Definition explode_capture (position : string) : M unit :=
  let! p := read (fun _ => position_index position) in
  match p with
  | None => fun st => (Raise TypeError, st)
  | Some (row, col) =>
      for_each [-1; 0; 1] (fun dr =>
        for_each [-1; 0; 1] (fun dc =>
          explode_square (row + dr) (col + dc)))
  end.

(** ['K' in row for some row of the board] *)
Definition any_row_has (x : ascii) (b : board) : bool :=
  existsb (fun row => existsb (Ascii.eqb x) row) b.

Definition make_move (from_position to_position : string) : M bool :=
  let! g := read (fun st => Ok (_current_game_state st)) in
  if negb (game_state_eqb g UNFINISHED) then ret false
  else
    let! v := read (fun st => valid_move st from_position to_position) in
    if negb v then ret false
    else
      let! sq := read (squares from_position to_position) in
      let '((from_row, from_col), (to_row, to_col)) := sq in
      let! target_piece := read (fun st => board_get (_board st) to_row to_col) in
      let! moving_piece := read (fun st => board_get (_board st) from_row from_col) in
      move_piece from_position to_position ;;;
      (if negb (target_piece =c? ".") then explode_capture to_position
       else if upper moving_piece =c? "P" then
         if (isupper moving_piece && (to_row =? 0))
            || (islower moving_piece && (to_row =? 7))
         then write_cell to_row to_col
                (if isupper moving_piece then "Q"%char else "q"%char)
         else ret tt
       else ret tt) ;;;
      (let! b := read (fun st => Ok (_board st)) in
       if negb (any_row_has "K" b) then write_game_state BLACK_WON
       else if negb (any_row_has "k" b) then write_game_state WHITE_WON
       else ret tt) ;;;
      (let! g' := read (fun st => Ok (_current_game_state st)) in
       if game_state_eqb g' UNFINISHED then
         let! t := read (fun st => Ok (_turn st)) in
         write_turn (if color_eqb t white then black else white)
       else ret tt) ;;;
      ret true.

(** The states an engine object can be in: the one [__init__] builds,
    and whatever a call of [make_move] leaves behind, whether it returns
    or raises. *)
Inductive reachable : state -> Prop :=
| reachable_init st : init = Ok st -> reachable st
| reachable_make_move st f t o st' :
    reachable st -> make_move f t st = (o, st') -> reachable st'.

(** ** Vocabulary of the properties *)

(** A board is well formed when it has eight rows of eight cells over the
    alphabet of the engine; every board the engine builds is. *)
Definition valid_cell (x : ascii) : bool :=
  existsb (Ascii.eqb x) (list_ascii_of_string ".PRNBQKprnbqk").

Definition wf_board (b : board) : Prop :=
  length b = 8%nat /\
  Forall (fun row => length row = 8%nat /\ Forall (fun x => valid_cell x = true) row) b.

Definition wf_state (st : state) : Prop := wf_board (_board st).

Definition in_bounds (r c : Z) : Prop := 0 <= r < 8 /\ 0 <= c < 8.

(** The content of a square and the board with one square rewritten,
    as total functions. *)
Definition cell (b : board) (r c : Z) : ascii :=
  match b !! Z.to_nat r with
  | Some row => match row !! Z.to_nat c with Some x => x | None => "."%char end
  | None => "."%char
  end.

Definition upd (b : board) (r c : Z) (v : ascii) : board :=
  alter (fun row => <[Z.to_nat c := v]> row) (Z.to_nat r) b.

(** Number of squares holding [x]. *)
Definition indicator (p : bool) : nat := if p then 1%nat else 0%nat.

Fixpoint count_in_row (x : ascii) (row : list ascii) : nat :=
  match row with
  | [] => 0%nat
  | y :: row' => (indicator (y =c? x) + count_in_row x row')%nat
  end.

Fixpoint count_piece (x : ascii) (b : board) : nat :=
  match b with
  | [] => 0%nat
  | row :: b' => (count_in_row x row + count_piece x b')%nat
  end.

(** At most one king of each colour. *)
Definition kings_inv (b : board) : Prop :=
  (count_piece "K" b <= 1)%nat /\ (count_piece "k" b <= 1)%nat.

(** The 3x3 neighbourhood of a square, centre included. *)
Definition near (row col r c : Z) : bool :=
  (Z.abs (r - row) <=? 1) && (Z.abs (c - col) <=? 1).

Definition same_square (r c r' c' : Z) : bool := (r =? r') && (c =? c').


Definition opposite (t : color) : color :=
  match t with white => black | black => white end.


(** *** The specification's data model and rules (spec sections 3, 4.1-4.4) *)

Inductive kind : Type := Pawn | Rook | Knight | Bishop | Queen | King.

(** Rendering of a coloured piece as a board cell: upper case for
    White, lower case for Black. *)
Definition piece_char (t : color) (k : kind) : ascii :=
  match t, k with
  | white, Pawn => "P" | white, Rook => "R" | white, Knight => "N"
  | white, Bishop => "B" | white, Queen => "Q" | white, King => "K"
  | black, Pawn => "p" | black, Rook => "r" | black, Knight => "n"
  | black, Bishop => "b" | black, Queen => "q" | black, King => "k"
  end%char.

Definition holds_piece_of (t : color) (x : ascii) : Prop :=
  exists k, x = piece_char t k.

(** Algebraic name of a square: column letter, then rank digit. *)
Definition format_square (r c : Z) : string :=
  String (ascii_of_N (Z.to_N (97 + c)))
    (String (ascii_of_N (Z.to_N (48 + (8 - r)))) EmptyString).

(** The strings matching [a-h][1-8]. *)
Definition matches_algebraic (s : string) : Prop :=
  exists p0 p1, s = String p0 (String p1 EmptyString)
    /\ 97 <= code p0 <= 104 /\ 49 <= code p1 <= 56.

(** Squares strictly between two aligned squares: the k-th step from
    the source, for 0 < k < the distance. *)
Definition distance (fr fc tr tc : Z) : Z :=
  Z.max (Z.abs (tr - fr)) (Z.abs (tc - fc)).

Definition path_clear (b : board) (fr fc tr tc : Z) : Prop :=
  forall k, 0 < k < distance fr fc tr tc ->
    cell b (fr + k * Z.sgn (tr - fr)) (fc + k * Z.sgn (tc - fc)) = "."%char.

(** The same, as a walk of [n] squares from [(r, c)]. *)
Fixpoint walk_clear (n : nat) (b : board) (r c sr sc : Z) : bool :=
  match n with
  | O => true
  | S n' => (cell b r c =c? ".") && walk_clear n' b (r + sr) (c + sc) sr sc
  end.

Definition unit_step (s : Z) : Prop := s = -1 \/ s = 0 \/ s = 1.

Definition aligned (fr fc tr tc : Z) : Prop :=
  fr = tr \/ fc = tc \/ Z.abs (tr - fr) = Z.abs (tc - fc).

Definition forward (t : color) : Z := match t with white => -1 | black => 1 end.
Definition start_rank (t : color) : Z := match t with white => 6 | black => 1 end.
Definition last_rank (t : color) : Z := match t with white => 0 | black => 7 end.

Definition pawn_rule (b : board) (t : color) (fr fc tr tc : Z) : Prop :=
  (tc = fc /\ tr = fr + forward t /\ cell b tr tc = "."%char)
  \/ (tc = fc /\ fr = start_rank t /\ tr = fr + 2 * forward t
      /\ cell b (fr + forward t) fc = "."%char /\ cell b tr tc = "."%char)
  \/ (Z.abs (tc - fc) = 1 /\ tr = fr + forward t
      /\ holds_piece_of (opposite t) (cell b tr tc)).

Definition rook_rule (b : board) (fr fc tr tc : Z) : Prop :=
  (fr = tr \/ fc = tc) /\ path_clear b fr fc tr tc.

Definition knight_rule (fr fc tr tc : Z) : Prop :=
  (Z.abs (tr - fr) = 1 /\ Z.abs (tc - fc) = 2)
  \/ (Z.abs (tr - fr) = 2 /\ Z.abs (tc - fc) = 1).

Definition bishop_rule (b : board) (fr fc tr tc : Z) : Prop :=
  Z.abs (tr - fr) = Z.abs (tc - fc) /\ tr <> fr /\ path_clear b fr fc tr tc.

Definition queen_rule (b : board) (fr fc tr tc : Z) : Prop :=
  rook_rule b fr fc tr tc \/ bishop_rule b fr fc tr tc.

Definition king_rule (fr fc tr tc : Z) : Prop :=
  Z.abs (tr - fr) <= 1 /\ Z.abs (tc - fc) <= 1.

Definition piece_rule (b : board) (t : color) (k : kind) (fr fc tr tc : Z) : Prop :=
  match k with
  | Pawn => pawn_rule b t fr fc tr tc
  | Rook => rook_rule b fr fc tr tc
  | Knight => knight_rule fr fc tr tc
  | Bishop => bishop_rule b fr fc tr tc
  | Queen => queen_rule b fr fc tr tc
  | King => king_rule fr fc tr tc
  end.

(** The mover's own colour, as [valid_move] tests it on a cell, and
    the handler [move_funcs] selects for a kind of piece. *)
Definition own_color (t : color) (x : ascii) : bool :=
  match t with white => isupper x | black => islower x end.

Definition dispatch (b : board) (k : kind) (f t : string) (fr fc tr tc : Z)
    : outcome bool :=
  match k with
  | Pawn => pawn_move b fr fc tr tc
  | Rook => rook_move b f t
  | Knight => knight_move f t
  | Bishop => bishop_move b f t
  | Queen => queen_move b f t
  | King => king_move f t
  end.

(** The four legality conditions of spec section 4.4. *)
Definition is_legal (st : state) (from_position to_position : string) : Prop :=
  exists fr fc tr tc k,
    position_index from_position = Ok (Some (fr, fc))
    /\ position_index to_position = Ok (Some (tr, tc))
    /\ cell (_board st) fr fc = piece_char (_turn st) k
    /\ ~ holds_piece_of (_turn st) (cell (_board st) tr tc)
    /\ piece_rule (_board st) (_turn st) k fr fc tr tc.

(** *** The effect of the writing methods, in closed form *)

Definition on_board (r c : Z) : bool :=
  (0 <=? r) && (r <? 8) && (0 <=? c) && (c <? 8).

(** [move_piece] *)
Definition moved (b : board) (fr fc tr tc : Z) : board :=
  upd (upd b tr tc (cell b fr fc)) fr fc "."%char.

(** One pass of the loop body of [explode_capture]. *)
Definition exploded_square (st : state) (r c : Z) : state :=
  if on_board r c && negb (cell (_board st) r c =c? ".") then
    mkState (upd (_board st) r c "."%char) (_turn st)
      (if upper (cell (_board st) r c) =c? "K"
       then (if islower (cell (_board st) r c) then BLACK_WON else WHITE_WON)
       else _current_game_state st)
  else st.

(** [explode_capture], centred on [(row, col)]. *)
Definition exploded (st : state) (row col : Z) : state :=
  fold_left
    (fun st1 dr =>
       fold_left (fun st2 dc => exploded_square st2 (row + dr) (col + dc))
                 [-1; 0; 1] st1)
    [-1; 0; 1] st.

(** The promotion branch of [make_move]. *)
Definition promoted (b : board) (moving_piece : ascii) (tr tc : Z) : board :=
  if upper moving_piece =c? "P" then
    if (isupper moving_piece && (tr =? 0)) || (islower moving_piece && (tr =? 7))
    then upd b tr tc (if isupper moving_piece then "Q"%char else "q"%char)
    else b
  else b.

(** The win check and the turn switch that end [make_move]. *)
Definition finished (st : state) : state :=
  let g :=
    if negb (any_row_has "K" (_board st)) then BLACK_WON
    else if negb (any_row_has "k" (_board st)) then WHITE_WON
    else _current_game_state st in
  mkState (_board st)
    (if game_state_eqb g UNFINISHED
     then (if color_eqb (_turn st) white then black else white)
     else _turn st)
    g.

(** The state a successful [make_move] leaves. *)
Definition after_move (st : state) (fr fc tr tc : Z) : state :=
  let st1 := with_board st (moved (_board st) fr fc tr tc) in
  finished
    (if negb (cell (_board st) tr tc =c? ".") then exploded st1 tr tc
     else with_board st1 (promoted (_board st1) (cell (_board st) fr fc) tr tc)).

(** What an explosion over the squares selected by [P] does to a
    state. *)
Definition blast (P : Z -> Z -> bool) (st st' : state) : Prop :=
  wf_state st'
  /\ _turn st' = _turn st
  /\ (forall r c, in_bounds r c ->
        cell (_board st') r c = if P r c then "."%char else cell (_board st) r c)
  /\ (forall x, x <> "."%char ->
        (count_piece x (_board st') <= count_piece x (_board st))%nat)
  /\ (_current_game_state st' = _current_game_state st
      \/ (count_piece "K" (_board st') < count_piece "K" (_board st))%nat
      \/ (count_piece "k" (_board st') < count_piece "k" (_board st))%nat).

(** A computation that cannot return False. *)
Definition never_false (k : M bool) : Prop :=
  forall st st', k st <> (Ok false, st').

(** *** Concrete positions *)

Definition rows (l : list string) : board := map list_ascii_of_string l.

(** The standard layout of spec section 3, White to move. *)
Definition standard_board : board :=
  rows ["rnbqkbnr"; "pppppppp"; "........"; "........";
        "........"; "........"; "PPPPPPPP"; "RNBQKBNR"]%string.

Definition initial_state : state := mkState standard_board white UNFINISHED.

(** The position after 1. e2e4 e7e5 2. e1e2 e8e7 3. e2f3 e7f6
    4. f3g4 f6g5: the two kings stand side by side, White to move. *)
Definition kings_adjacent : state :=
  mkState
    (rows ["rnbq.bnr"; "pppp.ppp"; "........"; "....p.k.";
           "....P.K."; "........"; "PPPP.PPP"; "RNBQ.BNR"]%string)
    white UNFINISHED.

(** A white pawn about to promote on e8, both kings on the board. *)
Definition pawn_on_e7 : state :=
  mkState
    (rows ["k......."; "....P..."; "........"; "........";
           "........"; "........"; "........"; "K......."]%string)
    white UNFINISHED.

(** The position after 1. e2e4 d7d5: White's e-pawn can take on d5. *)
Definition pawns_facing : state :=
  mkState
    (rows ["rnbqkbnr"; "ppp.pppp"; "........"; "...p....";
           "....P..."; "........"; "PPPP.PPP"; "RNBQKBNR"]%string)
    white UNFINISHED.

(** A sequence of calls of [make_move], each on the state the previous
    one left. *)
Definition play (ms : list (string * string)) (st : state) : state :=
  fold_left (fun s m => snd (make_move (fst m) (snd m) s)) ms st.

(** The second character of the string "a" followed by SUPERSCRIPT TWO
    (U+00B2). *)
Definition superscript_two : ascii := ascii_of_nat 178.
Definition a_superscript_two : string :=
  String "a" (String superscript_two EmptyString).

(** *** Further vocabulary *)

(** Some square selected by [P] holds [x]. *)
Definition holds_in (P : Z -> Z -> bool) (b : board) (x : ascii) : Prop :=
  exists r c, in_bounds r c /\ P r c = true /\ cell b r c = x.

(** What an explosion over the squares selected by [P] does to the
    game state. *)
Definition blast_state (P : Z -> Z -> bool) (st st' : state) : Prop :=
  (~ holds_in P (_board st) "K" -> ~ holds_in P (_board st) "k" ->
   _current_game_state st' = _current_game_state st)
  /\ (~ holds_in P (_board st) "K" -> holds_in P (_board st) "k" ->
      _current_game_state st' = BLACK_WON)
  /\ (~ holds_in P (_board st) "k" -> holds_in P (_board st) "K" ->
      _current_game_state st' = WHITE_WON).


(** What stands on the destination after a non-capturing move of the
    piece [p] to row [tr]: the promotion branch of [make_move]. *)
Definition arrived (p : ascii) (tr : Z) : ascii :=
  if upper p =c? "P" then
    if (isupper p && (tr =? 0)) || (islower p && (tr =? 7))
    then (if isupper p then "Q"%char else "q"%char)
    else p
  else p.

(** *** print_board *)

(** [range(n)] and [str(z)] *)
Definition range (n : nat) : list Z := map Z.of_nat (seq 0 n).
Definition str (z : Z) : string := NilZero.string_of_int (Z.to_int z).

(** What [print] has written, one string per call, together with the
    way the method ended. *)
Definition printed (A : Type) : Type := list string * outcome A.

(** The inner loop of [print_board]: [row_str += board[row][col] + ' ']
    for each column. *)
Fixpoint row_string (b : board) (row : Z) (cols : list Z) (row_str : string)
    : outcome string :=
  match cols with
  | [] => Ok row_str
  | col :: cols' =>
      let* x := board_get b row col in
      row_string b row cols' (row_str ++ String x " ")%string
  end.

(** The outer loop, after [out] has been printed. *)
Fixpoint print_rows (b : board) (rs : list Z) (out : list string) : printed unit :=
  match rs with
  | [] => (out, Ok tt)
  | row :: rs' =>
      match row_string b row (range 8) (str (8 - row) ++ " ")%string with
      | Ok row_str => print_rows b rs' (out ++ [row_str])
      | Raise e => (out, Raise e)
      | OutOfFuel => (out, OutOfFuel)
      end
  end.

Definition header : string := "  a b c d e f g h".

Definition print_board (st : state) : printed unit :=
  match print_rows (_board st) (range 8) [header] with
  | (out, Ok _) => (out ++ [EmptyString], Ok tt)
  | (out, Raise e) => (out, Raise e)
  | (out, OutOfFuel) => (out, OutOfFuel)
  end.

(** The line [print_board] writes for row [r] of a well-formed board:
    the rank, a space, and each cell followed by a space. *)
Fixpoint cells_string (b : board) (r : Z) (cols : list Z) : string :=
  match cols with
  | [] => EmptyString
  | c :: cols' => String (cell b r c) (String " " (cells_string b r cols'))
  end.

Definition row_line (b : board) (r : Z) : string :=
  (str (8 - r) ++ " " ++ cells_string b r (range 8))%string.

(** How the number of empty squares grows in an explosion over the
    squares selected by [P]. *)
Definition blast_empties (P : Z -> Z -> bool) (st st' : state) : Prop :=
  (count_piece "." (_board st) <= count_piece "." (_board st'))%nat
  /\ ((exists r c, in_bounds r c /\ P r c = true /\ cell (_board st) r c <> "."%char) ->
      (count_piece "." (_board st) + 1 <= count_piece "." (_board st'))%nat).

(** * Properties *)

(** ** Python lists and the board *)

Lemma getitem_lookup {A} (l : list A) (i : Z) (x : A) :
  0 <= i -> l !! Z.to_nat i = Some x -> getitem l i = Ok x.
Proof.
  intros Hi Hx. unfold getitem, norm_index.
  destruct (Z.ltb_spec i 0); [lia|].
  destruct (Z.ltb_spec i 0); [lia|]. now rewrite Hx.
Qed.

Lemma setitem_insert {A} (l : list A) (i : Z) (x : A) :
  0 <= i < Z.of_nat (length l) -> setitem l i x = Ok (<[Z.to_nat i := x]> l).
Proof.
  intros Hi. unfold setitem, norm_index.
  destruct (Z.ltb_spec i 0); [lia|].
  destruct (Z.ltb_spec i 0); [lia|].
  destruct (Z.leb_spec (Z.of_nat (length l)) i); [lia|]. reflexivity.
Qed.

Lemma wf_row (b : board) (r : Z) :
  wf_board b -> 0 <= r < 8 ->
  exists row, b !! Z.to_nat r = Some row /\ length row = 8%nat
              /\ Forall (fun x => valid_cell x = true) row.
Proof.
  intros [Hlen Hrows] Hr.
  destruct (lookup_lt_is_Some_2 b (Z.to_nat r)) as [row Hrow]; [lia|].
  exists row. split; [exact Hrow|].
  eapply (proj1 (Forall_lookup _ _) Hrows); eauto.
Qed.

Lemma wf_cell (b : board) (r c : Z) :
  wf_board b -> in_bounds r c ->
  exists row, b !! Z.to_nat r = Some row /\ length row = 8%nat
              /\ row !! Z.to_nat c = Some (cell b r c)
              /\ valid_cell (cell b r c) = true.
Proof.
  intros Hwf [Hr Hc].
  destruct (wf_row b r Hwf Hr) as (row & Hrow & Hlen & Hcells).
  destruct (lookup_lt_is_Some_2 row (Z.to_nat c)) as [x Hx]; [lia|].
  exists row. unfold cell. rewrite Hrow, Hx. repeat split; auto.
  eapply (proj1 (Forall_lookup _ _) Hcells); eauto.
Qed.

Lemma board_get_cell (b : board) (r c : Z) :
  wf_board b -> in_bounds r c -> board_get b r c = Ok (cell b r c).
Proof.
  intros Hwf Hin. destruct (wf_cell b r c Hwf Hin) as (row & Hrow & _ & Hx & _).
  destruct Hin as [Hr Hc]. unfold board_get.
  rewrite (getitem_lookup b r row) by (auto; lia). simpl.
  apply getitem_lookup; auto; lia.
Qed.

Lemma valid_cell_cell (b : board) (r c : Z) :
  wf_board b -> in_bounds r c -> valid_cell (cell b r c) = true.
Proof.
  intros Hwf Hin. destruct (wf_cell b r c Hwf Hin) as (row & _ & _ & _ & H). exact H.
Qed.

Lemma board_set_upd (b : board) (r c : Z) (v : ascii) :
  wf_board b -> in_bounds r c -> board_set b r c v = Ok (upd b r c v).
Proof.
  intros Hwf Hin. destruct (wf_cell b r c Hwf Hin) as (row & Hrow & Hlen & _ & _).
  destruct Hin as [Hr Hc]. unfold board_set.
  rewrite (getitem_lookup b r row) by (auto; lia). simpl.
  rewrite setitem_insert by lia. simpl.
  rewrite setitem_insert by (destruct Hwf as [-> _]; lia).
  f_equal. unfold upd.
  apply list_eq. intros i.
  destruct (decide (i = Z.to_nat r)) as [->|Hne].
  - rewrite list_lookup_insert_eq by (destruct Hwf as [-> _]; lia).
    rewrite list_lookup_alter_eq, Hrow. reflexivity.
  - rewrite list_lookup_insert_ne, list_lookup_alter_ne by auto. reflexivity.
Qed.

Lemma wf_upd (b : board) (r c : Z) (v : ascii) :
  wf_board b -> valid_cell v = true -> wf_board (upd b r c v).
Proof.
  intros [Hlen Hrows] Hv. unfold upd. split.
  - now rewrite length_alter.
  - apply Forall_alter; [exact Hrows|].
    intros row _ [Hl Hc]. split.
    + now rewrite length_insert.
    + apply Forall_insert; auto.
Qed.

Lemma cell_upd (b : board) (r c r' c' : Z) (v : ascii) :
  wf_board b -> in_bounds r c -> in_bounds r' c' ->
  cell (upd b r c v) r' c' = if same_square r' c' r c then v else cell b r' c'.
Proof.
  intros Hwf Hin Hin'.
  destruct (wf_cell b r c Hwf Hin) as (row & Hrow & Hlen & _ & _).
  destruct Hin as [Hr Hc], Hin' as [Hr' Hc'].
  unfold cell, upd, same_square. rewrite list_lookup_alter.
  destruct (Z.eqb_spec r' r) as [->|Hne]; simpl.
  - rewrite decide_True by reflexivity. rewrite Hrow. simpl.
    destruct (Z.eqb_spec c' c) as [->|Hne].
    + rewrite list_lookup_insert_eq by lia. reflexivity.
    + rewrite list_lookup_insert_ne by lia. reflexivity.
  - rewrite decide_False by lia. reflexivity.
Qed.

(** ** position_index *)

Lemma code_range (x : ascii) : 0 <= code x < 256.
Proof.
  unfold code. pose proof (N_ascii_bounded x). lia.
Qed.

Lemma ascii_of_code (x : ascii) : ascii_of_N (Z.to_N (code x)) = x.
Proof.
  unfold code. rewrite N2Z.id. apply ascii_N_embedding.
Qed.

Lemma code_inj (x y : ascii) : code x = code y -> x = y.
Proof.
  intros H. rewrite <- (ascii_of_code x), <- (ascii_of_code y). now rewrite H.
Qed.

Lemma column_index (p0 : ascii) :
  existsb (Ascii.eqb p0) _columns = true ->
  dict_get _columns_indexes p0 = Ok (code p0 - 97) /\ 97 <= code p0 <= 104.
Proof.
  unfold _columns. simpl.
  repeat match goal with
         | |- context [Ascii.eqb p0 ?y] =>
             destruct (Ascii.eqb_spec p0 y) as [->|?];
             [intros _; split; [reflexivity|vm_compute; split; discriminate]|]
         end.
  discriminate.
Qed.

Lemma column_member (p0 : ascii) :
  97 <= code p0 <= 104 -> existsb (Ascii.eqb p0) _columns = true.
Proof.
  intros H.
  assert (Hc : code p0 = 97 \/ code p0 = 98 \/ code p0 = 99 \/ code p0 = 100
               \/ code p0 = 101 \/ code p0 = 102 \/ code p0 = 103 \/ code p0 = 104) by lia.
  rewrite <- (ascii_of_code p0).
  repeat (destruct Hc as [-> | Hc]; [reflexivity|]). now rewrite Hc.
Qed.

Lemma position_index_two (p0 p1 : ascii) :
  position_index (String p0 (String p1 EmptyString))
  = if negb (existsb (Ascii.eqb p0) _columns) || negb (isdigit p1) then Ok None
    else
      let* col_index := dict_get _columns_indexes p0 in
      let* n := int p1 in
      if negb ((0 <=? col_index) && (col_index <? 8)
               && (0 <=? 8 - n) && (8 - n <? 8))
      then Ok None
      else Ok (Some (8 - n, col_index)).
Proof. reflexivity. Qed.

Lemma position_index_other (s : string) :
  String.length s <> 2%nat -> position_index s = Ok None.
Proof.
  intros H. unfold position_index.
  destruct (Nat.eqb_spec (String.length s) 2); [contradiction|reflexivity].
Qed.

(** On the strings of the form [a-h][1-8] the parser returns the square
    the data model assigns. *)
Lemma position_index_algebraic (p0 p1 : ascii) :
  97 <= code p0 <= 104 -> 49 <= code p1 <= 56 ->
  position_index (String p0 (String p1 EmptyString))
  = Ok (Some (8 - (code p1 - 48), code p0 - 97)).
Proof.
  intros H0 H1. rewrite position_index_two.
  pose proof (column_member p0 H0) as Hm. rewrite Hm.
  destruct (column_index p0 Hm) as [-> _].
  assert (Hd : isdigit p1 = true).
  { unfold isdigit. apply orb_true_iff; left. apply orb_true_iff; left.
    apply orb_true_iff; left. apply andb_true_iff; split; lia. }
  rewrite Hd. cbn [negb orb bind]. unfold int.
  replace ((48 <=? code p1) && (code p1 <=? 57)) with true
    by (symmetry; apply andb_true_iff; split; lia).
  cbn [bind].
  replace ((0 <=? code p0 - 97) && (code p0 - 97 <? 8)
           && (0 <=? 8 - (code p1 - 48)) && (8 - (code p1 - 48) <? 8)) with true
    by (symmetry; repeat (apply andb_true_iff; split); lia).
  reflexivity.
Qed.

(** Whatever square the parser returns, the string has the form
    [a-h][1-8] and the square is the one the data model assigns. *)
Lemma position_index_inv (s : string) (r c : Z) :
  position_index s = Ok (Some (r, c)) ->
  exists p0 p1, s = String p0 (String p1 EmptyString)
    /\ 97 <= code p0 <= 104 /\ 49 <= code p1 <= 56
    /\ r = 8 - (code p1 - 48) /\ c = code p0 - 97.
Proof.
  intros H. destruct s as [|p0 [|p1 [|? ?]]]; try discriminate H.
  rewrite position_index_two in H.
  destruct (existsb (Ascii.eqb p0) _columns) eqn:Hm; [|discriminate H].
  destruct (column_index p0 Hm) as [Hidx Hrange]. rewrite Hidx in H.
  destruct (isdigit p1); [|discriminate H]. cbn [negb orb bind] in H.
  unfold int in H.
  destruct ((48 <=? code p1) && (code p1 <=? 57)) eqn:Hd; [|discriminate H].
  cbn [bind] in H.
  destruct ((0 <=? code p0 - 97) && (code p0 - 97 <? 8)
            && (0 <=? 8 - (code p1 - 48)) && (8 - (code p1 - 48) <? 8)) eqn:Hb;
    [|discriminate H].
  cbn [negb] in H. injection H as <- <-.
  exists p0, p1. repeat (apply andb_true_iff in Hb; destruct Hb as [Hb ?]).
  repeat split; lia.
Qed.

Lemma position_index_in_bounds (s : string) (r c : Z) :
  position_index s = Ok (Some (r, c)) -> in_bounds r c.
Proof.
  intros H. destruct (position_index_inv s r c H) as (p0 & p1 & _ & ? & ? & -> & ->).
  unfold in_bounds. lia.
Qed.

Lemma format_square_parse (r c : Z) :
  in_bounds r c -> position_index (format_square r c) = Ok (Some (r, c)).
Proof.
  intros [Hr Hc]. unfold format_square.
  assert (Hcode : forall z, 0 <= z < 256 -> code (ascii_of_N (Z.to_N z)) = z).
  { intros z Hz. unfold code. rewrite N_ascii_embedding; lia. }
  rewrite position_index_algebraic; rewrite ?Hcode by lia; try lia.
  do 2 f_equal. f_equal; lia.
Qed.

Lemma position_index_format (s : string) (r c : Z) :
  position_index s = Ok (Some (r, c)) -> s = format_square r c.
Proof.
  intros H. destruct (position_index_inv s r c H) as (p0 & p1 & -> & ? & ? & -> & ->).
  unfold format_square. f_equal; [|f_equal].
  - replace (97 + (code p0 - 97)) with (code p0) by lia. now rewrite ascii_of_code.
  - replace (48 + (8 - (8 - (code p1 - 48)))) with (code p1) by lia. now rewrite ascii_of_code.
Qed.

Lemma position_index_injective (s s' : string) (r c : Z) :
  position_index s = Ok (Some (r, c)) -> position_index s' = Ok (Some (r, c)) -> s = s'.
Proof.
  intros H H'. rewrite (position_index_format _ _ _ H). symmetry.
  now apply position_index_format.
Qed.

(** ** clear_path *)


Lemma walk_clear_spec (n : nat) (b : board) (r c sr sc : Z) :
  walk_clear n b r c sr sc = true <->
  forall k, 0 <= k < Z.of_nat n -> cell b (r + k * sr) (c + k * sc) = "."%char.
Proof.
  revert r c. induction n as [|n IH]; intros r c.
  - simpl. split; [intros _ k Hk; lia|reflexivity].
  - cbn [walk_clear]. rewrite andb_true_iff, IH. split.
    + intros [H0 Hrest] k Hk.
      destruct (Z.eq_dec k 0) as [->|Hne].
      * replace (r + 0 * sr) with r by lia. replace (c + 0 * sc) with c by lia.
        now apply Ascii.eqb_eq.
      * specialize (Hrest (k - 1)).
        replace (r + sr + (k - 1) * sr) with (r + k * sr) in Hrest by lia.
        replace (c + sc + (k - 1) * sc) with (c + k * sc) in Hrest by lia.
        apply Hrest. lia.
    + intros H. split.
      * apply Ascii.eqb_eq. specialize (H 0).
        replace (r + 0 * sr) with r in H by lia. replace (c + 0 * sc) with c in H by lia.
        apply H. lia.
      * intros k Hk. specialize (H (k + 1)).
        replace (r + (k + 1) * sr) with (r + sr + k * sr) in H by lia.
        replace (c + (k + 1) * sc) with (c + sc + k * sc) in H by lia.
        apply H. lia.
Qed.

(** The loop, started [n] steps before the destination on a line that
    stays on the board, visits exactly those [n] squares and needs [n]
    units of fuel. *)
Lemma clear_path_loop_walk (n : nat) :
  forall (fuel : nat) (b : board) (r c sr sc : Z),
    wf_board b -> (n <= fuel)%nat ->
    unit_step sr -> unit_step sc -> (sr <> 0 \/ sc <> 0) ->
    (forall k, 0 <= k < Z.of_nat n -> in_bounds (r + k * sr) (c + k * sc)) ->
    clear_path_loop fuel b r c (r + Z.of_nat n * sr) (c + Z.of_nat n * sc) sr sc
    = Ok (walk_clear n b r c sr sc).
Proof.
  induction n as [|n IH]; intros fuel b r c sr sc Hwf Hfuel Hsr Hsc Hstep Hin.
  - replace (r + Z.of_nat 0 * sr) with r by lia.
    replace (c + Z.of_nat 0 * sc) with c by lia.
    destruct fuel; cbn [clear_path_loop walk_clear]; rewrite !Z.eqb_refl; reflexivity.
  - destruct fuel as [|fuel]; [lia|].
    cbn [clear_path_loop walk_clear].
    assert (Hgo : negb (r =? r + Z.of_nat (S n) * sr)
                  || negb (c =? c + Z.of_nat (S n) * sc) = true).
    { apply orb_true_iff. destruct Hstep as [H|H]; [left|right];
        apply negb_true_iff, Z.eqb_neq; nia. }
    rewrite Hgo.
    rewrite board_get_cell; auto.
    2:{ specialize (Hin 0). replace (r + 0 * sr) with r in Hin by lia.
        replace (c + 0 * sc) with c in Hin by lia. apply Hin. lia. }
    cbn [bind]. destruct (cell b r c =c? "."); cbn [negb andb]; [|reflexivity].
    replace (r + Z.of_nat (S n) * sr) with (r + sr + Z.of_nat n * sr) by lia.
    replace (c + Z.of_nat (S n) * sc) with (c + sc + Z.of_nat n * sc) by lia.
    apply IH; auto; [lia|].
    intros k Hk. specialize (Hin (k + 1)).
    replace (r + (k + 1) * sr) with (r + sr + k * sr) in Hin by lia.
    replace (c + (k + 1) * sc) with (c + sc + k * sc) in Hin by lia.
    apply Hin. lia.
Qed.

Lemma step_is_sgn (a b : Z) :
  (if a =? b then 0 else if b >? a then 1 else -1) = Z.sgn (b - a).
Proof.
  destruct (Z.eqb_spec a b); [subst; now rewrite Z.sub_diag|].
  rewrite Z.gtb_ltb. destruct (Z.ltb_spec a b).
  - symmetry. apply Z.sgn_pos. lia.
  - symmetry. apply Z.sgn_neg. lia.
Qed.

Lemma aligned_target (fr fc tr tc : Z) :
  aligned fr fc tr tc ->
  tr = fr + distance fr fc tr tc * Z.sgn (tr - fr)
  /\ tc = fc + distance fr fc tr tc * Z.sgn (tc - fc).
Proof.
  unfold aligned, distance. intros H.
  destruct (Z.sgn_spec (tr - fr)) as [[? ->]|[[? ->]|[? ->]]];
  destruct (Z.sgn_spec (tc - fc)) as [[? ->]|[[? ->]|[? ->]]]; lia.
Qed.

(** [clear_path] between aligned squares of a well-formed board: it
    returns, with any fuel from 7 on, and its answer is [path_clear]. *)
Lemma clear_path_fuel_aligned (fuel : nat) (b : board) (f t : string)
    (fr fc tr tc : Z) :
  wf_board b ->
  position_index f = Ok (Some (fr, fc)) ->
  position_index t = Ok (Some (tr, tc)) ->
  aligned fr fc tr tc -> (7 <= fuel)%nat ->
  exists res, clear_path_fuel fuel b f t = Ok res
              /\ (res = true <-> path_clear b fr fc tr tc).
Proof.
  intros Hwf Hf Ht Hal Hfuel.
  pose proof (position_index_in_bounds _ _ _ Hf) as [Hfr Hfc].
  pose proof (position_index_in_bounds _ _ _ Ht) as [Htr Htc].
  unfold clear_path_fuel, path_clear. rewrite Hf, Ht. cbn [bind].
  rewrite !step_is_sgn.
  destruct (aligned_target fr fc tr tc Hal) as [Er Ec].
  assert (Hd : 0 <= distance fr fc tr tc <= 7) by (unfold distance; lia).
  assert (Hsr : unit_step (Z.sgn (tr - fr))).
  { unfold unit_step. destruct (Z.sgn_spec (tr - fr)) as [[? ->]|[[? ->]|[? ->]]]; auto. }
  assert (Hsc : unit_step (Z.sgn (tc - fc))).
  { unfold unit_step. destruct (Z.sgn_spec (tc - fc)) as [[? ->]|[[? ->]|[? ->]]]; auto. }
  assert (Hzero : distance fr fc tr tc = 0 -> Z.sgn (tr - fr) = 0 /\ Z.sgn (tc - fc) = 0).
  { unfold distance. intros H. split; apply Z.sgn_null_iff; lia. }
  assert (Hstep : distance fr fc tr tc <> 0 -> Z.sgn (tr - fr) <> 0 \/ Z.sgn (tc - fc) <> 0).
  { unfold distance. intros H.
    destruct (Z.eq_dec (tr - fr) 0) as [E|E]; [right|left]; rewrite Z.sgn_null_iff; lia. }
  set (d := distance fr fc tr tc) in *.
  set (sr := Z.sgn (tr - fr)) in *. set (sc := Z.sgn (tc - fc)) in *.
  clearbody d sr sc.
  destruct (Z.eq_dec d 0) as [Hd0|Hd0].
  - (* same square: the loop is not entered *)
    destruct (Hzero Hd0) as [Hr0 Hc0].
    exists true. split.
    + rewrite Hr0, Hc0, !Z.add_0_r.
      assert (tr = fr /\ tc = fc) as [-> ->] by (rewrite Er, Ec, Hd0; lia).
      destruct fuel; cbn [clear_path_loop]; rewrite !Z.eqb_refl; reflexivity.
    + split; [|reflexivity]. intros _ k Hk. lia.
  - specialize (Hstep Hd0).
    exists (walk_clear (Z.to_nat (d - 1)) b (fr + sr) (fc + sc) sr sc). split.
    + rewrite <- clear_path_loop_walk with (fuel := fuel); auto; try lia.
      * f_equal; rewrite Z2Nat.id by lia; lia.
      * intros k Hk. rewrite Z2Nat.id in Hk by lia. unfold in_bounds.
        destruct Hsr as [-> | [-> | ->]], Hsc as [-> | [-> | ->]]; lia.
    + rewrite walk_clear_spec, Z2Nat.id by lia.
      split.
      * intros H k Hk. specialize (H (k - 1)).
        replace (fr + sr + (k - 1) * sr) with (fr + k * sr) in H by lia.
        replace (fc + sc + (k - 1) * sc) with (fc + k * sc) in H by lia.
        apply H. lia.
      * intros H k Hk. specialize (H (k + 1)).
        replace (fr + (k + 1) * sr) with (fr + sr + k * sr) in H by lia.
        replace (fc + (k + 1) * sc) with (fc + sc + k * sc) in H by lia.
        apply H. lia.
Qed.

(** ** Cells *)

Lemma valid_cell_cases (x : ascii) :
  valid_cell x = true ->
  x = "."%char \/ (exists k, x = piece_char white k) \/ (exists k, x = piece_char black k).
Proof.
  unfold valid_cell. cbn [list_ascii_of_string existsb].
  repeat match goal with
         | |- context [Ascii.eqb x ?y] =>
             destruct (Ascii.eqb_spec x y) as [->|?]
         end; intros H; try discriminate H; auto;
    first [ right; left; (exists Pawn + exists Rook + exists Knight + exists Bishop
                           + exists Queen + exists King); reflexivity
          | right; right; (exists Pawn + exists Rook + exists Knight + exists Bishop
                           + exists Queen + exists King); reflexivity ].
Qed.

Lemma valid_piece_char (t : color) (k : kind) : valid_cell (piece_char t k) = true.
Proof. destruct t, k; reflexivity. Qed.

Lemma own_color_piece (t t' : color) (k : kind) :
  own_color t (piece_char t' k) = color_eqb t t'.
Proof. destruct t, t', k; reflexivity. Qed.

Lemma piece_char_not_dot (t : color) (k : kind) : piece_char t k <> "."%char.
Proof. destruct t, k; discriminate. Qed.

Lemma piece_char_inj (t t' : color) (k k' : kind) :
  piece_char t k = piece_char t' k' -> t = t' /\ k = k'.
Proof. destruct t, t', k, k'; intros H; try discriminate H; auto. Qed.

Lemma own_color_holds (t : color) (x : ascii) :
  valid_cell x = true -> (own_color t x = true <-> holds_piece_of t x).
Proof.
  intros Hx. destruct (valid_cell_cases x Hx) as [->|[[k ->]|[k ->]]].
  - split; [destruct t; discriminate|].
    intros [k Hk]. symmetry in Hk. now apply piece_char_not_dot in Hk.
  - rewrite own_color_piece. split.
    + destruct t; [|discriminate]. intros _. now exists k.
    + intros [k' Hk]. apply piece_char_inj in Hk as [<- _]. reflexivity.
  - rewrite own_color_piece. split.
    + destruct t; [discriminate|]. intros _. now exists k.
    + intros [k' Hk]. apply piece_char_inj in Hk as [<- _]. reflexivity.
Qed.

Lemma own_color_not_dot (t : color) (x : ascii) :
  own_color t x = true -> (x =c? ".") = false.
Proof.
  intros H. destruct (Ascii.eqb_spec x "."); [subst; destruct t; discriminate|reflexivity].
Qed.

(** ** The per-piece rules *)

Lemma pawn_move_spec (b : board) (t : color) (fr fc tr tc : Z) :
  wf_board b -> in_bounds fr fc -> in_bounds tr tc ->
  cell b fr fc = piece_char t Pawn ->
  exists res, pawn_move b fr fc tr tc = Ok res
              /\ (res = true <-> pawn_rule b t fr fc tr tc).
Proof.
  intros Hwf Hf Ht Hp. unfold pawn_move, pawn_rule.
  rewrite board_get_cell, Hp by auto. cbn [bind].
  assert (Hdir : (if isupper (piece_char t Pawn)
                  then (-1, 6, islower) else (1, 1, isupper))
                 = (forward t, start_rank t, own_color (opposite t))).
  { destruct t; reflexivity. }
  rewrite Hdir. clear Hdir.
  pose proof (valid_cell_cell b tr tc Hwf Ht) as Hvt.
  pose proof (own_color_holds (opposite t) _ Hvt) as Hown.
  assert (Hfw : forward t = -1 \/ forward t = 1) by (destruct t; auto).
  assert (Hst : start_rank t = 6 /\ forward t = -1 \/ start_rank t = 1 /\ forward t = 1)
    by (destruct t; auto).
  destruct Hf as [Hfr Hfc], Ht as [Htr Htc].
  unfold and_then. cbn [bind].
  destruct (Z.eqb_spec tc fc) as [Ec|Ec].
  - subst tc.
    destruct (Z.eqb_spec tr (fr + forward t)) as [E1|E1].
    + rewrite board_get_cell by (auto; split; lia). cbn [bind].
      destruct (Ascii.eqb_spec (cell b tr fc) ".") as [E2|E2].
      * exists true. split; [reflexivity|]. split; auto.
      * destruct (Z.eqb_spec fr (start_rank t)); cbn [bind];
          [destruct (Z.eqb_spec tr (fr + 2 * forward t)); [lia|]|];
          cbn [bind]; exists false; (split; [reflexivity|]);
          (split; [discriminate|]); intros [H|[H|H]]; try tauto; lia.
    + cbn [bind].
      destruct (Z.eqb_spec fr (start_rank t)) as [E3|E3]; cbn [bind].
      * destruct (Z.eqb_spec tr (fr + 2 * forward t)) as [E4|E4]; cbn [bind].
        -- rewrite !board_get_cell by (auto; split; lia). cbn [bind].
           destruct (Ascii.eqb_spec (cell b (fr + forward t) fc) ".") as [E5|E5];
             cbn [bind].
           ++ destruct (Ascii.eqb_spec (cell b tr fc) ".") as [E6|E6].
              ** exists true. split; [reflexivity|]. split; auto.
                 intros _. right. left. tauto.
              ** exists false. split; [reflexivity|]. split; [discriminate|].
                 intros [H|[H|H]]; try tauto; lia.
           ++ exists false. split; [reflexivity|]. split; [discriminate|].
              intros [H|[H|H]]; try tauto; lia.
        -- exists false. split; [reflexivity|]. split; [discriminate|].
           intros [H|[H|H]]; try tauto; lia.
      * exists false. split; [reflexivity|]. split; [discriminate|].
        intros [H|[H|H]]; try tauto; lia.
  - destruct (Z.eqb_spec (Z.abs (tc - fc)) 1) as [E1|E1]; cbn [andb].
    + destruct (Z.eqb_spec tr (fr + forward t)) as [E2|E2].
      * rewrite !board_get_cell by (auto; split; lia). cbn [bind].
        destruct (own_color (opposite t) (cell b tr tc)) eqn:Eo.
        -- rewrite (own_color_not_dot _ _ Eo). cbn [negb].
           exists true. split; [reflexivity|]. split; auto.
           intros _. right. right. repeat split; auto. now apply Hown.
        -- exists false.
           split; [destruct (cell b tr tc =c? "."); reflexivity|].
           split; [discriminate|].
           intros [H|[H|H]]; try tauto; try lia.
      * exists false. split; [reflexivity|]. split; [discriminate|].
        intros [H|[H|H]]; try tauto; lia.
    + exists false. split; [reflexivity|]. split; [discriminate|].
      intros [H|[H|H]]; try tauto; lia.
Qed.

Lemma clear_path_aligned (b : board) (f t : string) (fr fc tr tc : Z) :
  wf_board b ->
  position_index f = Ok (Some (fr, fc)) ->
  position_index t = Ok (Some (tr, tc)) ->
  aligned fr fc tr tc ->
  exists res, clear_path b f t = Ok res /\ (res = true <-> path_clear b fr fc tr tc).
Proof.
  intros. eapply clear_path_fuel_aligned; eauto. unfold path_fuel. lia.
Qed.

Lemma rook_move_spec (b : board) (f t : string) (fr fc tr tc : Z) :
  wf_board b ->
  position_index f = Ok (Some (fr, fc)) ->
  position_index t = Ok (Some (tr, tc)) ->
  exists res, rook_move b f t = Ok res /\ (res = true <-> rook_rule b fr fc tr tc).
Proof.
  intros Hwf Hf Ht. unfold rook_move, rook_rule. rewrite Hf, Ht. cbn [bind].
  destruct (Z.eqb_spec fr tr) as [E1|E1]; cbn [orb].
  - destruct (clear_path_aligned b f t fr fc tr tc) as (res & -> & Hres); auto.
    { left. exact E1. }
    exists res. split; [reflexivity|]. tauto.
  - destruct (Z.eqb_spec fc tc) as [E2|E2].
    + destruct (clear_path_aligned b f t fr fc tr tc) as (res & -> & Hres); auto.
      { right. left. exact E2. }
      exists res. split; [reflexivity|]. tauto.
    + exists false. split; [reflexivity|]. split; [discriminate|]. tauto.
Qed.

(** [bishop_move] accepts a zero displacement; [valid_move] never asks
    it about one. *)
Lemma bishop_move_spec (b : board) (f t : string) (fr fc tr tc : Z) :
  wf_board b ->
  position_index f = Ok (Some (fr, fc)) ->
  position_index t = Ok (Some (tr, tc)) ->
  exists res, bishop_move b f t = Ok res
    /\ (res = true <->
        Z.abs (tr - fr) = Z.abs (tc - fc) /\ path_clear b fr fc tr tc).
Proof.
  intros Hwf Hf Ht. unfold bishop_move. rewrite Hf, Ht. cbn [bind].
  destruct (Z.eqb_spec (Z.abs (tr - fr)) (Z.abs (tc - fc))) as [E|E].
  - destruct (clear_path_aligned b f t fr fc tr tc) as (res & -> & Hres); auto.
    { right. right. exact E. }
    exists res. split; [reflexivity|]. tauto.
  - exists false. split; [reflexivity|]. split; [discriminate|]. tauto.
Qed.

Lemma queen_move_spec (b : board) (f t : string) (fr fc tr tc : Z) :
  wf_board b ->
  position_index f = Ok (Some (fr, fc)) ->
  position_index t = Ok (Some (tr, tc)) ->
  exists res, queen_move b f t = Ok res
    /\ (res = true <->
        rook_rule b fr fc tr tc
        \/ (Z.abs (tr - fr) = Z.abs (tc - fc) /\ path_clear b fr fc tr tc)).
Proof.
  intros Hwf Hf Ht. unfold queen_move, or_else.
  destruct (rook_move_spec b f t fr fc tr tc Hwf Hf Ht) as (r1 & -> & H1).
  destruct (bishop_move_spec b f t fr fc tr tc Hwf Hf Ht) as (r2 & -> & H2).
  cbn [bind]. destruct r1.
  - exists true. split; [reflexivity|]. tauto.
  - exists r2. split; [reflexivity|]. rewrite H2. split; [tauto|].
    intros [H|H]; [|exact H]. apply H1 in H. discriminate H.
Qed.

Lemma knight_move_spec (f t : string) (fr fc tr tc : Z) :
  position_index f = Ok (Some (fr, fc)) ->
  position_index t = Ok (Some (tr, tc)) ->
  exists res, knight_move f t = Ok res /\ (res = true <-> knight_rule fr fc tr tc).
Proof.
  intros Hf Ht. unfold knight_move, knight_rule. rewrite Hf, Ht. cbn [bind].
  eexists. split; [reflexivity|]. cbn [existsb fst snd].
  rewrite orb_false_r, orb_true_iff, !andb_true_iff, !Z.eqb_eq. lia.
Qed.

Lemma king_move_spec (f t : string) (fr fc tr tc : Z) :
  position_index f = Ok (Some (fr, fc)) ->
  position_index t = Ok (Some (tr, tc)) ->
  exists res, king_move f t = Ok res /\ (res = true <-> king_rule fr fc tr tc).
Proof.
  intros Hf Ht. unfold king_move, king_rule. rewrite Hf, Ht. cbn [bind].
  eexists. split; [reflexivity|].
  rewrite andb_true_iff, !Z.leb_le. tauto.
Qed.

(** The handler of a kind decides that kind's rule, for distinct
    squares. *)
Lemma dispatch_spec (b : board) (t : color) (k : kind) (f t' : string)
    (fr fc tr tc : Z) :
  wf_board b ->
  position_index f = Ok (Some (fr, fc)) ->
  position_index t' = Ok (Some (tr, tc)) ->
  cell b fr fc = piece_char t k ->
  (fr, fc) <> (tr, tc) ->
  exists res, dispatch b k f t' fr fc tr tc = Ok res
              /\ (res = true <-> piece_rule b t k fr fc tr tc).
Proof.
  intros Hwf Hf Ht Hp Hne.
  pose proof (position_index_in_bounds _ _ _ Hf) as Hfi.
  pose proof (position_index_in_bounds _ _ _ Ht) as Hti.
  destruct k; cbn [dispatch piece_rule].
  - now apply pawn_move_spec.
  - now apply rook_move_spec.
  - now apply knight_move_spec.
  - destruct (bishop_move_spec b f t' fr fc tr tc Hwf Hf Ht) as (res & -> & H).
    exists res. split; [reflexivity|]. rewrite H. unfold bishop_rule.
    split; [|tauto]. intros [H1 H2]. repeat split; auto.
    intros ->. apply Hne. f_equal. lia.
  - destruct (queen_move_spec b f t' fr fc tr tc Hwf Hf Ht) as (res & -> & H).
    exists res. split; [reflexivity|]. rewrite H. unfold queen_rule, bishop_rule.
    split; [|tauto]. intros [H1|[H1 H2]]; [now left|right]. repeat split; auto.
    intros ->. apply Hne. f_equal. lia.
  - now apply king_move_spec.
Qed.

(** ** valid_move *)

Lemma valid_move_unparsed (st : state) (f t : string) :
  valid_move st f t = Ok true ->
  exists fr fc tr tc, position_index f = Ok (Some (fr, fc))
                      /\ position_index t = Ok (Some (tr, tc)).
Proof.
  unfold valid_move. intros H.
  destruct (position_index f) as [[[fr fc]|]| |]; try discriminate H;
    destruct (position_index t) as [[[tr tc]|]| |]; try discriminate H.
  now exists fr, fc, tr, tc.
Qed.

Lemma valid_move_own (st : state) (k : kind) (f t : string) (fr fc tr tc : Z) :
  wf_state st ->
  position_index f = Ok (Some (fr, fc)) ->
  position_index t = Ok (Some (tr, tc)) ->
  cell (_board st) fr fc = piece_char (_turn st) k ->
  valid_move st f t
  = if own_color (_turn st) (cell (_board st) tr tc) then Ok false
    else dispatch (_board st) k f t fr fc tr tc.
Proof.
  intros Hwf Hf Ht Hp. unfold valid_move. rewrite Hf, Ht. cbn [bind].
  rewrite !board_get_cell by (eauto using position_index_in_bounds).
  cbn [bind]. rewrite Hp. unfold own_color.
  generalize (isupper (cell (_board st) tr tc)) (islower (cell (_board st) tr tc)).
  intros up lo. destruct (_turn st), k, up, lo; reflexivity.
Qed.

Lemma valid_move_foreign (st : state) (f t : string) (fr fc tr tc : Z) :
  wf_state st ->
  position_index f = Ok (Some (fr, fc)) ->
  position_index t = Ok (Some (tr, tc)) ->
  ~ holds_piece_of (_turn st) (cell (_board st) fr fc) ->
  valid_move st f t = Ok false.
Proof.
  intros Hwf Hf Ht Hp. unfold valid_move. rewrite Hf, Ht. cbn [bind].
  pose proof (position_index_in_bounds _ _ _ Hf) as Hfi.
  rewrite !board_get_cell by (eauto using position_index_in_bounds).
  cbn [bind].
  destruct (valid_cell_cases _ (valid_cell_cell _ fr fc Hwf Hfi)) as [E|[[k E]|[k E]]];
    rewrite E in *.
  - reflexivity.
  - destruct (_turn st); [exfalso; apply Hp; now exists k|].
    destruct k; reflexivity.
  - destruct (_turn st); [|exfalso; apply Hp; now exists k].
    destruct k; reflexivity.
Qed.

(** ** Counting pieces *)

Lemma count_in_row_insert (x v y : ascii) (row : list ascii) (i : nat) :
  row !! i = Some y ->
  (count_in_row x (<[i := v]> row) + indicator (y =c? x)
   = count_in_row x row + indicator (v =c? x))%nat.
Proof.
  revert i. induction row as [|z row IH]; intros [|i] H; try discriminate H.
  - injection H as ->. change (<[0%nat := v]> (y :: row)) with (v :: row).
    cbn [count_in_row]. lia.
  - change ((z :: row) !! S i) with (row !! i) in H. specialize (IH i H).
    change (<[S i := v]> (z :: row)) with (z :: <[i := v]> row).
    cbn [count_in_row]. lia.
Qed.

Lemma count_piece_alter (x : ascii) (f : list ascii -> list ascii) (b : board)
    (i : nat) (row : list ascii) :
  b !! i = Some row ->
  (count_piece x (alter f i b) + count_in_row x row
   = count_piece x b + count_in_row x (f row))%nat.
Proof.
  revert i. induction b as [|z b IH]; intros [|i] H; try discriminate H.
  - injection H as ->. change (alter f 0%nat (row :: b)) with (f row :: b).
    cbn [count_piece]. lia.
  - change ((z :: b) !! S i) with (b !! i) in H. specialize (IH i H).
    change (alter f (S i) (z :: b)) with (z :: alter f i b).
    cbn [count_piece]. lia.
Qed.

Lemma count_piece_upd (x v : ascii) (b : board) (r c : Z) :
  wf_board b -> in_bounds r c ->
  (count_piece x (upd b r c v) + indicator (cell b r c =c? x)
   = count_piece x b + indicator (v =c? x))%nat.
Proof.
  intros Hwf Hin. destruct (wf_cell b r c Hwf Hin) as (row & Hrow & _ & Hx & _).
  unfold upd.
  pose proof (count_piece_alter x (fun row => <[Z.to_nat c := v]> row) b _ row Hrow).
  pose proof (count_in_row_insert x v _ row _ Hx). cbn beta in *. lia.
Qed.




Lemma indicator_le (p : bool) : (indicator p <= 1)%nat.
Proof. destruct p; cbn; lia. Qed.

(** ** move_piece *)

Lemma wf_moved (b : board) (fr fc tr tc : Z) :
  wf_board b -> in_bounds fr fc -> wf_board (moved b fr fc tr tc).
Proof.
  intros Hwf Hf. unfold moved. apply wf_upd; [|reflexivity].
  apply wf_upd; auto. now apply valid_cell_cell.
Qed.

Lemma cell_moved (b : board) (fr fc tr tc r c : Z) :
  wf_board b -> in_bounds fr fc -> in_bounds tr tc -> in_bounds r c ->
  cell (moved b fr fc tr tc) r c
  = if same_square r c fr fc then "."%char
    else if same_square r c tr tc then cell b fr fc
    else cell b r c.
Proof.
  intros Hwf Hf Ht Hi. unfold moved.
  rewrite cell_upd; auto.
  - destruct (same_square r c fr fc); [reflexivity|]. now rewrite cell_upd.
  - apply wf_upd; auto. now apply valid_cell_cell.
Qed.

(** Relocation never adds a piece of any sort: the mover leaves one
    square for another and whatever stood on the target is overwritten. *)
Lemma count_moved (x : ascii) (b : board) (fr fc tr tc : Z) :
  wf_board b -> in_bounds fr fc -> in_bounds tr tc -> x <> "."%char ->
  (count_piece x (moved b fr fc tr tc) + indicator (cell b tr tc =c? x)
   = count_piece x b)%nat.
Proof.
  intros Hwf Hf Ht Hx. unfold moved.
  pose proof (valid_cell_cell b fr fc Hwf Hf) as Hv.
  pose proof (wf_upd b tr tc _ Hwf Hv) as Hwf1.
  pose proof (count_piece_upd x (cell b fr fc) b tr tc Hwf Ht) as H1.
  pose proof (count_piece_upd x "."%char _ fr fc Hwf1 Hf) as H2.
  rewrite cell_upd in H2 by auto.
  assert (Hsame : (if same_square fr fc tr tc then cell b fr fc else cell b fr fc)
                  = cell b fr fc) by (destruct (same_square fr fc tr tc); reflexivity).
  rewrite Hsame in H2.
  assert (Hdot : ("."%char =c? x) = false).
  { destruct (Ascii.eqb_spec "." x); [congruence|reflexivity]. }
  rewrite Hdot in H2. cbn [indicator] in H2. lia.
Qed.

Lemma move_piece_run (st : state) (f t : string) (fr fc tr tc : Z) :
  wf_state st ->
  position_index f = Ok (Some (fr, fc)) ->
  position_index t = Ok (Some (tr, tc)) ->
  move_piece f t st = (Ok tt, with_board st (moved (_board st) fr fc tr tc)).
Proof.
  intros Hwf Hf Ht.
  pose proof (position_index_in_bounds _ _ _ Hf) as Hfi.
  pose proof (position_index_in_bounds _ _ _ Ht) as Hti.
  unfold move_piece, bindM, read, squares. rewrite Hf, Ht. cbn [bind].
  rewrite board_get_cell by auto.
  unfold write_cell. rewrite board_set_upd by auto.
  cbn [with_board _board].
  rewrite board_set_upd; auto.
  apply wf_upd; auto. now apply valid_cell_cell.
Qed.

(** ** explode_capture *)

Lemma for_each_run {A} (Inv : state -> Prop) (g : state -> A -> state)
    (body : A -> M unit) (l : list A) :
  (forall x st, Inv st -> body x st = (Ok tt, g st x) /\ Inv (g st x)) ->
  forall st, Inv st ->
    for_each l body st = (Ok tt, fold_left g l st) /\ Inv (fold_left g l st).
Proof.
  intros Hbody. induction l as [|x l IH]; intros st Hst.
  - split; [reflexivity|exact Hst].
  - cbn [for_each fold_left]. unfold bindM.
    destruct (Hbody x st Hst) as [-> Hst']. now apply IH.
Qed.

Lemma on_board_in_bounds (r c : Z) : on_board r c = true <-> in_bounds r c.
Proof.
  unfold on_board, in_bounds. rewrite !andb_true_iff, !Z.leb_le, !Z.ltb_lt. tauto.
Qed.

Lemma wf_exploded_square (st : state) (r c : Z) :
  wf_state st -> wf_state (exploded_square st r c).
Proof.
  intros Hwf. unfold exploded_square.
  destruct (on_board r c && negb (cell (_board st) r c =c? ".")); [|exact Hwf].
  unfold wf_state. cbn [_board]. now apply wf_upd.
Qed.

Lemma explode_square_run (st : state) (r c : Z) :
  wf_state st -> explode_square r c st = (Ok tt, exploded_square st r c).
Proof.
  intros Hwf. unfold explode_square, exploded_square. fold (on_board r c).
  destruct (on_board r c) eqn:Hon; [|reflexivity]. cbn [andb].
  apply on_board_in_bounds in Hon.
  unfold bindM, read. rewrite board_get_cell by auto.
  destruct (negb (cell (_board st) r c =c? ".")); [|reflexivity].
  destruct (upper (cell (_board st) r c) =c? "K").
  - unfold write_game_state, write_cell. cbn [with_game_state _board].
    rewrite board_set_upd by auto. reflexivity.
  - unfold ret, write_cell. rewrite board_set_upd by auto.
    destruct st; reflexivity.
Qed.

Lemma explode_capture_run (st : state) (t : string) (row col : Z) :
  wf_state st -> position_index t = Ok (Some (row, col)) ->
  explode_capture t st = (Ok tt, exploded st row col).
Proof.
  intros Hwf Ht. unfold explode_capture, bindM at 1, read. rewrite Ht.
  unfold exploded.
  apply (for_each_run wf_state
           (fun st1 dr => fold_left
              (fun st2 dc => exploded_square st2 (row + dr) (col + dc)) [-1; 0; 1] st1));
    [|exact Hwf].
  intros dr st1 Hst1.
  apply (for_each_run wf_state
           (fun st2 dc => exploded_square st2 (row + dr) (col + dc)));
    [|exact Hst1].
  intros dc st2 Hst2. split; [now apply explode_square_run|now apply wf_exploded_square].
Qed.

Lemma upper_is_K (x : ascii) :
  valid_cell x = true -> (upper x =c? "K") = true -> x = "K"%char \/ x = "k"%char.
Proof.
  intros Hv. destruct (valid_cell_cases x Hv) as [->|[[k ->]|[k ->]]];
    [discriminate| |]; destruct k; try discriminate; auto.
Qed.

Lemma blast_square (st : state) (r c : Z) :
  wf_state st ->
  blast (fun r' c' => same_square r' c' r c) st (exploded_square st r c).
Proof.
  intros Hwf. pose proof (wf_exploded_square st r c Hwf) as Hwf'.
  unfold exploded_square in *.
  destruct (on_board r c) eqn:Hon; cbn [andb] in *.
  - apply on_board_in_bounds in Hon.
    destruct (Ascii.eqb_spec (cell (_board st) r c) ".") as [Hdot|Hdot]; cbn [negb] in *.
    + (* an empty square: nothing is written *)
      unfold blast. split; [exact Hwf|]. split; [reflexivity|].
      split; [|split; [reflexivity|now left]].
      intros r' c' Hin. unfold same_square.
      destruct (Z.eqb_spec r' r) as [->|]; [|reflexivity].
      destruct (Z.eqb_spec c' c) as [->|]; [|reflexivity]. exact Hdot.
    + pose proof (count_piece_upd "K" "." _ r c Hwf Hon) as HK.
      pose proof (count_piece_upd "k" "." _ r c Hwf Hon) as Hk.
      cbn [Ascii.eqb Bool.eqb indicator] in HK, Hk.
      unfold blast. cbn [_board _turn _current_game_state].
      split; [exact Hwf'|]. split; [reflexivity|]. split; [|split].
      * intros r' c' Hin. now apply cell_upd.
      * intros x Hx. pose proof (count_piece_upd x "." _ r c Hwf Hon) as Hc.
        assert (E : ("."%char =c? x) = false).
        { destruct (Ascii.eqb_spec "." x); [congruence|reflexivity]. }
        rewrite E in Hc. cbn [indicator] in Hc. lia.
      * destruct (upper (cell (_board st) r c) =c? "K") eqn:HupK; [|now left].
        right. apply upper_is_K in HupK; [|now apply valid_cell_cell].
        destruct HupK as [E|E]; rewrite E in *; cbn in HK, Hk; lia.
  - unfold blast. split; [exact Hwf|]. split; [reflexivity|].
    split; [|split; [reflexivity|now left]].
    intros r' c' Hin. unfold same_square.
    destruct (Z.eqb_spec r' r) as [->|]; [|reflexivity].
    destruct (Z.eqb_spec c' c) as [->|]; [|reflexivity].
    apply on_board_in_bounds in Hin. congruence.
Qed.

Lemma blast_compose (P Q : Z -> Z -> bool) (st st1 st2 : state) :
  blast P st st1 -> blast Q st1 st2 ->
  blast (fun r c => P r c || Q r c) st st2.
Proof.
  intros (_ & Ht1 & Hc1 & Hn1 & Hg1) (Hwf2 & Ht2 & Hc2 & Hn2 & Hg2).
  unfold blast. split; [exact Hwf2|]. split; [congruence|]. split; [|split].
  - intros r c Hin. rewrite Hc2, Hc1 by auto.
    destruct (P r c), (Q r c); reflexivity.
  - intros x Hx. specialize (Hn1 x Hx). specialize (Hn2 x Hx). lia.
  - pose proof (Hn1 "K"%char ltac:(discriminate)).
    pose proof (Hn1 "k"%char ltac:(discriminate)).
    pose proof (Hn2 "K"%char ltac:(discriminate)).
    pose proof (Hn2 "k"%char ltac:(discriminate)).
    destruct Hg1 as [E1|[?|?]], Hg2 as [E2|[?|?]];
      first [left; congruence | right; left; lia | right; right; lia].
Qed.

Lemma blast_ext (P Q : Z -> Z -> bool) (st st' : state) :
  (forall r c, in_bounds r c -> P r c = Q r c) -> blast P st st' -> blast Q st st'.
Proof.
  intros HPQ (Hwf & Ht & Hc & Hn & Hg). unfold blast.
  split; [exact Hwf|]. split; [exact Ht|]. split; [|split; assumption].
  intros r c Hin. rewrite <- HPQ by auto. now apply Hc.
Qed.

(** The explosion empties the 3x3 neighbourhood of its centre and
    nothing else; each square is visited once. *)
Lemma blast_exploded (st : state) (row col : Z) :
  wf_state st -> blast (near row col) st (exploded st row col).
Proof.
  intros Hwf. unfold exploded. cbn [fold_left].
  eapply blast_ext; cycle 1.
  - do 8 (eapply blast_compose;
            [|apply blast_square;
              repeat apply wf_exploded_square; exact Hwf]).
    apply blast_square. exact Hwf.
  - intros r c _. cbv beta. unfold same_square, near.
    repeat match goal with
           | |- context [?a =? ?b] => destruct (Z.eqb_spec a b)
           end; cbn [andb orb];
      symmetry; first [ apply andb_true_iff; split; apply Z.leb_le; lia
                      | apply andb_false_iff;
                        destruct (Z.leb_spec (Z.abs (r - row)) 1); [right|left; reflexivity];
                        apply Z.leb_gt; lia ].
Qed.

(** ** make_move *)

Lemma finish_run (st : state) :
  ((let! b := read (fun st => Ok (_board st)) in
    if negb (any_row_has "K" b) then write_game_state BLACK_WON
    else if negb (any_row_has "k" b) then write_game_state WHITE_WON
    else ret tt) ;;;
   (let! g' := read (fun st => Ok (_current_game_state st)) in
    if game_state_eqb g' UNFINISHED then
      let! t := read (fun st => Ok (_turn st)) in
      write_turn (if color_eqb t white then black else white)
    else ret tt) ;;;
   ret true) st
  = (Ok true, finished st).
Proof.
  unfold finished, bindM, read, write_game_state, write_turn, ret.
  destruct st as [b t g]. cbn [_board _turn _current_game_state].
  destruct (any_row_has "K" b), (any_row_has "k" b), g, t; reflexivity.
Qed.

(** A legal move on a well-formed board in an unfinished game runs to
    completion and leaves [after_move]. *)
Lemma make_move_run (st : state) (f t : string) (fr fc tr tc : Z) :
  wf_state st ->
  _current_game_state st = UNFINISHED ->
  valid_move st f t = Ok true ->
  position_index f = Ok (Some (fr, fc)) ->
  position_index t = Ok (Some (tr, tc)) ->
  make_move f t st = (Ok true, after_move st fr fc tr tc).
Proof.
  intros Hwf Hg Hv Hf Ht.
  pose proof (position_index_in_bounds _ _ _ Hf) as Hfi.
  pose proof (position_index_in_bounds _ _ _ Ht) as Hti.
  assert (Hwf1 : wf_state (with_board st (moved (_board st) fr fc tr tc))).
  { unfold wf_state. cbn [with_board _board]. now apply wf_moved. }
  unfold make_move, after_move.
  unfold bindM at 1. unfold read at 1. rewrite Hg. cbn [game_state_eqb negb].
  unfold bindM at 1. unfold read at 1. rewrite Hv. cbn [negb].
  unfold bindM at 1. unfold read at 1. unfold squares. rewrite Hf, Ht. cbn [bind].
  unfold bindM at 1. unfold read at 1. rewrite board_get_cell by auto.
  unfold bindM at 1. unfold read at 1. rewrite board_get_cell by auto.
  unfold bindM at 1. rewrite (move_piece_run st f t fr fc tr tc Hwf Hf Ht).
  destruct (negb (cell (_board st) tr tc =c? ".")).
  - unfold bindM at 1. rewrite (explode_capture_run _ t tr tc Hwf1 Ht).
    apply finish_run.
  - unfold promoted.
    destruct (upper (cell (_board st) fr fc) =c? "P").
    + destruct ((isupper (cell (_board st) fr fc) && (tr =? 0))
                || (islower (cell (_board st) fr fc) && (tr =? 7))).
      * unfold bindM at 1. unfold write_cell. rewrite board_set_upd by auto.
        apply finish_run.
      * unfold bindM at 1. unfold ret at 1.
        rewrite finish_run. reflexivity.
    + unfold bindM at 1. unfold ret at 1.
      rewrite finish_run. reflexivity.
Qed.

(** [position_index] returns or raises ValueError; [valid_move] on a
    well-formed board returns whenever both its parses do. *)
Lemma position_index_cases (s : string) :
  (exists o, position_index s = Ok o) \/ position_index s = Raise ValueError.
Proof.
  destruct s as [|p0 [|p1 [|p2 s]]];
    try (left; exists None; apply position_index_other; cbn; lia).
  rewrite position_index_two.
  destruct (existsb (Ascii.eqb p0) _columns) eqn:Hm; [|left; now exists None].
  destruct (column_index p0 Hm) as [-> _].
  destruct (isdigit p1); [|left; now exists None]. cbn [negb orb bind].
  unfold int. destruct ((48 <=? code p1) && (code p1 <=? 57)); [|now right].
  cbn [bind]. left.
  match goal with |- context [if ?c then _ else _] => destruct c end; eauto.
Qed.

Lemma valid_move_returns (st : state) (f t : string) (o o' : option (Z * Z)) :
  wf_state st -> position_index f = Ok o -> position_index t = Ok o' ->
  exists res, valid_move st f t = Ok res.
Proof.
  intros Hwf Hf Ht.
  destruct o as [[fr fc]|], o' as [[tr tc]|];
    try (exists false; unfold valid_move; rewrite Hf, Ht; reflexivity).
  pose proof (position_index_in_bounds _ _ _ Hf) as Hfi.
  pose proof (position_index_in_bounds _ _ _ Ht) as Hti.
  pose proof (valid_cell_cell _ fr fc Hwf Hfi) as Hvf.
  destruct (own_color (_turn st) (cell (_board st) fr fc)) eqn:Hown.
  - apply own_color_holds in Hown as [k Hk]; auto.
    rewrite (valid_move_own st k f t fr fc tr tc Hwf Hf Ht Hk).
    destruct (own_color (_turn st) (cell (_board st) tr tc)) eqn:Hto; [now exists false|].
    assert (Hne : (fr, fc) <> (tr, tc)).
    { intros [= -> ->]. rewrite Hk, own_color_piece in Hto.
      destruct (_turn st); discriminate Hto. }
    destruct (dispatch_spec _ _ k f t fr fc tr tc Hwf Hf Ht Hk Hne) as (res & Hd & _).
    now exists res.
  - exists false. apply (valid_move_foreign st f t fr fc tr tc Hwf Hf Ht).
    intros Hh. apply own_color_holds in Hh; auto. congruence.
Qed.

Lemma valid_move_total (st : state) (f t : string) :
  wf_state st ->
  (exists res, valid_move st f t = Ok res) \/ valid_move st f t = Raise ValueError.
Proof.
  intros Hwf.
  destruct (position_index_cases f) as [[o Hf]|Hf].
  - destruct (position_index_cases t) as [[o' Ht]|Ht].
    + left. eapply valid_move_returns; eauto.
    + right. unfold valid_move. rewrite Hf, Ht. reflexivity.
  - right. unfold valid_move. rewrite Hf. reflexivity.
Qed.

(** Every way [make_move] can end: the game was over, the move was
    rejected, [valid_move] raised, or the move was carried out. *)
Lemma make_move_cases (st : state) (f t : string) :
  wf_state st ->
  (_current_game_state st <> UNFINISHED /\ make_move f t st = (Ok false, st))
  \/ (_current_game_state st = UNFINISHED /\ valid_move st f t = Ok false
      /\ make_move f t st = (Ok false, st))
  \/ (_current_game_state st = UNFINISHED
      /\ exists e, valid_move st f t = Raise e /\ make_move f t st = (Raise e, st))
  \/ (_current_game_state st = UNFINISHED /\ valid_move st f t = Ok true
      /\ exists fr fc tr tc,
           position_index f = Ok (Some (fr, fc))
           /\ position_index t = Ok (Some (tr, tc))
           /\ make_move f t st = (Ok true, after_move st fr fc tr tc)).
Proof.
  intros Hwf.
  destruct (_current_game_state st) eqn:Hg.
  2,3: left; split; [discriminate|]; unfold make_move, bindM, read; rewrite Hg;
       reflexivity.
  right. destruct (valid_move st f t) as [[|]|e|] eqn:Hv.
  - right. right. split; [reflexivity|]. split; [reflexivity|].
    destruct (valid_move_unparsed st f t Hv) as (fr & fc & tr & tc & Hf & Ht).
    exists fr, fc, tr, tc. repeat split; auto. now apply make_move_run.
  - left. split; [reflexivity|]. split; [reflexivity|].
    unfold make_move. unfold bindM at 1. unfold read at 1. rewrite Hg.
    cbn [game_state_eqb negb]. unfold bindM at 1. unfold read at 1.
    rewrite Hv. reflexivity.
  - right. left. split; [reflexivity|]. exists e. split; [reflexivity|].
    unfold make_move. unfold bindM at 1. unfold read at 1. rewrite Hg.
    cbn [game_state_eqb negb]. unfold bindM at 1. unfold read at 1.
    rewrite Hv. reflexivity.
  - destruct (valid_move_total st f t Hwf) as [[res H]|H]; congruence.
Qed.

(** ** The state after a move *)

Lemma wf_rows_check (b : board) :
  (length b =? 8)%nat
  && forallb (fun row => (length row =? 8)%nat && forallb valid_cell row) b = true ->
  wf_board b.
Proof.
  rewrite andb_true_iff, Nat.eqb_eq, forallb_forall. intros [Hlen Hrows].
  split; [exact Hlen|]. apply Forall_forall. intros row Hrow.
  apply list_elem_of_In in Hrow. specialize (Hrows row Hrow).
  rewrite andb_true_iff, Nat.eqb_eq, forallb_forall in Hrows.
  destruct Hrows as [Hl Hc]. split; [exact Hl|]. apply Forall_forall.
  intros x Hx. apply Hc. now apply list_elem_of_In.
Qed.

Lemma init_initial_state : init = Ok initial_state.
Proof. reflexivity. Qed.

Lemma wf_initial_state : wf_state initial_state.
Proof. apply wf_rows_check. reflexivity. Qed.

Lemma finished_board (st : state) : _board (finished st) = _board st.
Proof. reflexivity. Qed.


Lemma finished_turn (st : state) :
  _turn (finished st)
  = if game_state_eqb (_current_game_state (finished st)) UNFINISHED
    then opposite (_turn st) else _turn st.
Proof.
  unfold finished. cbn [_turn _current_game_state].
  destruct (_turn st); reflexivity.
Qed.

Lemma wf_promoted (b : board) (x : ascii) (tr tc : Z) :
  wf_board b -> wf_board (promoted b x tr tc).
Proof.
  intros Hwf. unfold promoted.
  destruct (upper x =c? "P"); [|exact Hwf].
  destruct ((isupper x && (tr =? 0)) || (islower x && (tr =? 7))); [|exact Hwf].
  apply wf_upd; [exact Hwf|]. destruct (isupper x); reflexivity.
Qed.

Lemma count_promoted (k : ascii) (b : board) (x : ascii) (tr tc : Z) :
  wf_board b -> in_bounds tr tc -> k = "K"%char \/ k = "k"%char ->
  (count_piece k (promoted b x tr tc) <= count_piece k b)%nat.
Proof.
  intros Hwf Hin Hk. unfold promoted.
  destruct (upper x =c? "P"); [|lia].
  destruct ((isupper x && (tr =? 0)) || (islower x && (tr =? 7))); [|lia].
  pose proof (count_piece_upd k (if isupper x then "Q"%char else "q"%char) b tr tc Hwf Hin) as H.
  assert (E : ((if isupper x then "Q"%char else "q"%char) =c? k) = false)
    by (destruct Hk as [-> | ->], (isupper x); reflexivity).
  rewrite E in H. cbn [indicator] in H. lia.
Qed.

(** The part of a successful move before the win check, described
    square by square. *)
Lemma after_move_wf (st : state) (fr fc tr tc : Z) :
  wf_state st -> in_bounds fr fc -> in_bounds tr tc ->
  wf_state (after_move st fr fc tr tc).
Proof.
  intros Hwf Hf Ht. unfold after_move, wf_state. rewrite finished_board.
  assert (Hwf1 : wf_state (with_board st (moved (_board st) fr fc tr tc))).
  { unfold wf_state. cbn [with_board _board]. now apply wf_moved. }
  destruct (negb (cell (_board st) tr tc =c? ".")).
  - apply (blast_exploded _ tr tc Hwf1).
  - cbn [with_board _board]. now apply wf_promoted.
Qed.

Lemma after_move_kings (st : state) (fr fc tr tc : Z) (k : ascii) :
  wf_state st -> in_bounds fr fc -> in_bounds tr tc ->
  k = "K"%char \/ k = "k"%char ->
  (count_piece k (_board (after_move st fr fc tr tc))
   + indicator (cell (_board st) tr tc =c? k)
   <= count_piece k (_board st))%nat.
Proof.
  intros Hwf Hf Ht Hk. unfold after_move. rewrite finished_board.
  assert (Hwf1 : wf_state (with_board st (moved (_board st) fr fc tr tc))).
  { unfold wf_state. cbn [with_board _board]. now apply wf_moved. }
  assert (Hkdot : k <> "."%char) by (destruct Hk as [-> | ->]; discriminate).
  pose proof (count_moved k (_board st) fr fc tr tc Hwf Hf Ht Hkdot) as Hm.
  destruct (negb (cell (_board st) tr tc =c? ".")).
  - destruct (blast_exploded _ tr tc Hwf1) as (_ & _ & _ & Hn & _).
    specialize (Hn k Hkdot). cbn [with_board _board] in Hn. lia.
  - cbn [with_board _board].
    pose proof (count_promoted k (moved (_board st) fr fc tr tc)
                  (cell (_board st) fr fc) tr tc Hwf1 Ht Hk).
    lia.
Qed.

Lemma after_move_turn (st : state) (fr fc tr tc : Z) :
  wf_state st -> in_bounds fr fc -> in_bounds tr tc ->
  _turn (after_move st fr fc tr tc)
  = if game_state_eqb (_current_game_state (after_move st fr fc tr tc)) UNFINISHED
    then opposite (_turn st) else _turn st.
Proof.
  intros Hwf Hf Ht. unfold after_move. rewrite finished_turn.
  assert (Hwf1 : wf_state (with_board st (moved (_board st) fr fc tr tc))).
  { unfold wf_state. cbn [with_board _board]. now apply wf_moved. }
  destruct (negb (cell (_board st) tr tc =c? ".")).
  - destruct (blast_exploded _ tr tc Hwf1) as (_ & -> & _). reflexivity.
  - reflexivity.
Qed.

Lemma after_capture_cell (st : state) (fr fc tr tc r c : Z) :
  wf_state st -> in_bounds fr fc -> in_bounds tr tc -> in_bounds r c ->
  cell (_board st) tr tc <> "."%char ->
  cell (_board (after_move st fr fc tr tc)) r c
  = if same_square r c fr fc || near tr tc r c then "."%char
    else cell (_board st) r c.
Proof.
  intros Hwf Hf Ht Hi Hcap. unfold after_move. rewrite finished_board.
  assert (Hwf1 : wf_state (with_board st (moved (_board st) fr fc tr tc))).
  { unfold wf_state. cbn [with_board _board]. now apply wf_moved. }
  destruct (Ascii.eqb_spec (cell (_board st) tr tc) "."); [contradiction|].
  cbn [negb].
  destruct (blast_exploded _ tr tc Hwf1) as (_ & _ & Hc & _).
  rewrite Hc by auto. cbn [with_board _board]. rewrite cell_moved by auto.
  destruct (near tr tc r c) eqn:Hnear; [now rewrite orb_true_r|].
  rewrite orb_false_r. destruct (same_square r c fr fc); [reflexivity|].
  assert (E : same_square r c tr tc = false).
  { unfold same_square, near in *.
    destruct (Z.eqb_spec r tr) as [->|]; [|reflexivity].
    destruct (Z.eqb_spec c tc) as [->|]; [|reflexivity].
    rewrite !Z.sub_diag in Hnear. discriminate Hnear. }
  now rewrite E.
Qed.

Lemma after_quiet_cell (st : state) (fr fc tr tc r c : Z) :
  wf_state st -> in_bounds fr fc -> in_bounds tr tc -> in_bounds r c ->
  cell (_board st) tr tc = "."%char ->
  cell (_board (after_move st fr fc tr tc)) r c
  = cell (promoted (moved (_board st) fr fc tr tc) (cell (_board st) fr fc) tr tc) r c.
Proof.
  intros Hwf Hf Ht Hi Hq. unfold after_move. rewrite finished_board, Hq. reflexivity.
Qed.

Lemma make_move_success (st st' : state) (f t : string) (fr fc tr tc : Z) :
  wf_state st ->
  make_move f t st = (Ok true, st') ->
  position_index f = Ok (Some (fr, fc)) ->
  position_index t = Ok (Some (tr, tc)) ->
  _current_game_state st = UNFINISHED
  /\ valid_move st f t = Ok true
  /\ st' = after_move st fr fc tr tc.
Proof.
  intros Hwf H Hf Ht.
  destruct (make_move_cases st f t Hwf)
    as [[_ E]|[(_ & _ & E)|[(_ & e & _ & E)|(Hg & Hv & fr' & fc' & tr' & tc' & Hf' & Ht' & E)]]];
    rewrite E in H; try discriminate H.
  rewrite Hf in Hf'. rewrite Ht in Ht'.
  injection Hf' as <- <-. injection Ht' as <- <-. injection H as <-. auto.
Qed.

Lemma make_move_success_parsed (st st' : state) (f t : string) :
  wf_state st ->
  make_move f t st = (Ok true, st') ->
  exists fr fc tr tc,
    position_index f = Ok (Some (fr, fc)) /\ position_index t = Ok (Some (tr, tc))
    /\ in_bounds fr fc /\ in_bounds tr tc
    /\ _current_game_state st = UNFINISHED
    /\ st' = after_move st fr fc tr tc.
Proof.
  intros Hwf H.
  destruct (make_move_cases st f t Hwf)
    as [[_ E]|[(_ & _ & E)|[(_ & e & _ & E)|(Hg & Hv & fr & fc & tr & tc & Hf & Ht & E)]]];
    rewrite E in H; try discriminate H.
  injection H as <-. exists fr, fc, tr, tc.
  pose proof (position_index_in_bounds _ _ _ Hf).
  pose proof (position_index_in_bounds _ _ _ Ht). auto 8.
Qed.

Lemma never_false_bind {A} (m : M A) (k : A -> M bool) :
  (forall a, never_false (k a)) -> never_false (bindM m k).
Proof.
  intros Hk st st'. unfold bindM. destruct (m st) as [[a|e|] st1]; try discriminate.
  apply Hk.
Qed.

Lemma never_false_ret_true : never_false (ret true).
Proof. intros st st'. unfold ret. discriminate. Qed.

Lemma reachable_play (ms : list (string * string)) :
  forall st, reachable st -> reachable (play ms st).
Proof.
  induction ms as [|[f t] ms IH]; intros st Hst; [exact Hst|].
  unfold play. cbn [fold_left fst snd]. apply IH.
  eapply reachable_make_move; [exact Hst|]. apply surjective_pairing.
Qed.

(** * The claims *)

(** C1. A successful capturing [make_move] changes the board exactly as
    follows: the from-square becomes empty and every on-board square of
    the 3x3 neighbourhood of the destination (centre included, hence the
    capturing piece too) becomes empty; every other square keeps its
    content.  The neighbourhood is that of the destination alone: no
    removal triggers a further one. *)
Theorem capture_explosion_frame (st st' : state) (f t : string) (fr fc tr tc : Z) :
  wf_state st ->
  make_move f t st = (Ok true, st') ->
  position_index f = Ok (Some (fr, fc)) ->
  position_index t = Ok (Some (tr, tc)) ->
  cell (_board st) tr tc <> "."%char ->
  wf_state st'
  /\ forall r c, in_bounds r c ->
       cell (_board st') r c
       = if same_square r c fr fc || near tr tc r c then "."%char
         else cell (_board st) r c.
Proof.
  intros Hwf H Hf Ht Hcap.
  destruct (make_move_success st st' f t fr fc tr tc Hwf H Hf Ht) as (_ & _ & ->).
  pose proof (position_index_in_bounds _ _ _ Hf) as Hfi.
  pose proof (position_index_in_bounds _ _ _ Ht) as Hti.
  split; [now apply after_move_wf|].
  intros r c Hi. now apply after_capture_cell.
Qed.

Lemma capture_explosion_frame_witness :
  wf_state (snd (make_move "e4" "d5" pawns_facing))
  /\ forall r c, in_bounds r c ->
       cell (_board (snd (make_move "e4" "d5" pawns_facing))) r c
       = if same_square r c 4 4 || near 3 3 r c then "."%char
         else cell (_board pawns_facing) r c.
Proof.
  apply (capture_explosion_frame pawns_facing _ "e4" "d5" 4 4 3 3).
  - apply wf_rows_check. reflexivity.
  - reflexivity.
  - reflexivity.
  - reflexivity.
  - discriminate.
Defined.

(** C2. Whenever [make_move] returns False the board, the turn and the
    game state are what they were before the call; this is what happens
    when the game is already over and when the move is not valid. *)
Theorem failed_move_leaves_state (st : state) (f t : string) :
  (forall st', make_move f t st = (Ok false, st') -> st' = st)
  /\ (_current_game_state st <> UNFINISHED -> make_move f t st = (Ok false, st))
  /\ (_current_game_state st = UNFINISHED -> valid_move st f t = Ok false ->
      make_move f t st = (Ok false, st)).
Proof.
  split; [|split].
  - intros st' H. unfold make_move in H.
    unfold bindM at 1 in H. unfold read at 1 in H.
    destruct (negb (game_state_eqb (_current_game_state st) UNFINISHED)).
    { unfold ret in H. now injection H. }
    unfold bindM at 1 in H. unfold read at 1 in H.
    destruct (valid_move st f t) as [[|]|e|]; try discriminate H.
    + exfalso. revert H. cbn [negb].
      apply never_false_bind. intros [[from_row from_col] [to_row to_col]].
      do 6 (apply never_false_bind; intros ?).
      apply never_false_ret_true.
    + unfold ret in H. cbn [negb] in H. now injection H.
  - intros Hg. unfold make_move. unfold bindM at 1. unfold read at 1.
    destruct (_current_game_state st); [contradiction| |]; reflexivity.
  - intros Hg Hv. unfold make_move. unfold bindM at 1. unfold read at 1.
    rewrite Hg. cbn [game_state_eqb negb].
    unfold bindM at 1. unfold read at 1. rewrite Hv. reflexivity.
Qed.

Lemma failed_move_leaves_state_witness :
  make_move "b1" "b3" initial_state = (Ok false, initial_state)
  /\ snd (make_move "b1" "b3" initial_state) = initial_state.
Proof.
  split; [reflexivity|].
  apply (proj1 (failed_move_leaves_state initial_state "b1" "b3")). reflexivity.
Defined.

(** C6. After a successful non-capturing [make_move] of a pawn to the
    farthest rank of its colour (row 0 for White, row 7 for Black) the
    destination holds a queen of that colour, and short of that rank it
    holds the pawn; after a capturing pawn move the destination is
    empty, so a capture never promotes. *)
Theorem pawn_promotion (st st' : state) (f t : string) (fr fc tr tc : Z)
    (col : color) :
  wf_state st ->
  make_move f t st = (Ok true, st') ->
  position_index f = Ok (Some (fr, fc)) ->
  position_index t = Ok (Some (tr, tc)) ->
  cell (_board st) fr fc = piece_char col Pawn ->
  (cell (_board st) tr tc = "."%char -> tr = last_rank col ->
   cell (_board st') tr tc = piece_char col Queen)
  /\ (cell (_board st) tr tc = "."%char -> tr <> last_rank col ->
      cell (_board st') tr tc = piece_char col Pawn)
  /\ (cell (_board st) tr tc <> "."%char -> cell (_board st') tr tc = "."%char).
Proof.
  intros Hwf H Hf Ht Hp.
  destruct (make_move_success st st' f t fr fc tr tc Hwf H Hf Ht) as (_ & _ & ->).
  pose proof (position_index_in_bounds _ _ _ Hf) as Hfi.
  pose proof (position_index_in_bounds _ _ _ Ht) as Hti.
  assert (Hwf1 : wf_board (moved (_board st) fr fc tr tc)) by now apply wf_moved.
  assert (Hsq : forall x y, same_square x y x y = true).
  { intros x y. unfold same_square. now rewrite !Z.eqb_refl. }
  assert (Hquiet : cell (_board st) tr tc = "."%char ->
                   cell (moved (_board st) fr fc tr tc) tr tc = piece_char col Pawn).
  { intros Hq. rewrite cell_moved by auto.
    destruct (same_square tr tc fr fc) eqn:E.
    - unfold same_square in E. apply andb_true_iff in E as [E1 E2].
      apply Z.eqb_eq in E1, E2. subst. rewrite Hq in Hp.
      symmetry in Hp. now apply piece_char_not_dot in Hp.
    - now rewrite Hsq. }
  split; [|split].
  - intros Hq Hlast. rewrite after_quiet_cell by auto. rewrite Hp. unfold promoted.
    destruct col; cbn [last_rank] in Hlast; subst tr.
    + change (cell (upd (moved (_board st) fr fc 0 tc) 0 tc "Q") 0 tc = "Q"%char).
      rewrite cell_upd by auto. now rewrite Hsq.
    + change (cell (upd (moved (_board st) fr fc 7 tc) 7 tc "q") 7 tc = "q"%char).
      rewrite cell_upd by auto. now rewrite Hsq.
  - intros Hq Hlast. rewrite after_quiet_cell by auto. rewrite Hp. unfold promoted.
    assert (E : (isupper (piece_char col Pawn) && (tr =? 0))
                || (islower (piece_char col Pawn) && (tr =? 7)) = false).
    { destruct col; cbn [last_rank] in Hlast.
      - destruct (Z.eqb_spec tr 0); [contradiction|reflexivity].
      - destruct (Z.eqb_spec tr 7); [contradiction|reflexivity]. }
    rewrite E. destruct col; now apply Hquiet.
  - intros Hcap. rewrite after_capture_cell by auto.
    assert (E : near tr tc tr tc = true).
    { unfold near. rewrite !Z.sub_diag. reflexivity. }
    rewrite E, orb_true_r. reflexivity.
Qed.

Lemma pawn_promotion_witness :
  cell (_board pawn_on_e7) 1 4 = "P"%char
  /\ cell (_board (snd (make_move "e7" "e8" pawn_on_e7))) 0 4 = "Q"%char.
Proof.
  split; [reflexivity|].
  apply (proj1 (pawn_promotion pawn_on_e7 _ "e7" "e8" 1 4 0 4 white
                  ltac:(apply wf_rows_check; reflexivity)
                  eq_refl eq_refl eq_refl eq_refl)); reflexivity.
Defined.

(** C7. After a successful [make_move] the turn has passed to the other
    colour if the game is still unfinished, and is unchanged if the move
    ended the game. *)
Theorem turn_alternation (st st' : state) (f t : string) :
  wf_state st ->
  make_move f t st = (Ok true, st') ->
  (_current_game_state st' = UNFINISHED -> _turn st' = opposite (_turn st))
  /\ (_current_game_state st' <> UNFINISHED -> _turn st' = _turn st).
Proof.
  intros Hwf H.
  destruct (make_move_success_parsed st st' f t Hwf H)
    as (fr & fc & tr & tc & _ & _ & Hfi & Hti & _ & ->).
  rewrite after_move_turn by auto.
  destruct (_current_game_state (after_move st fr fc tr tc));
    split; intros E; try reflexivity; try discriminate E; contradiction.
Qed.

Lemma turn_alternation_witness :
  _turn (snd (make_move "e2" "e4" initial_state)) = black
  /\ _turn (snd (make_move "g4" "g5" kings_adjacent)) = white.
Proof.
  split.
  - apply (proj1 (turn_alternation initial_state _ "e2" "e4"
                    wf_initial_state eq_refl)). reflexivity.
  - apply (proj2 (turn_alternation kings_adjacent _ "g4" "g5"
                    ltac:(apply wf_rows_check; reflexivity) eq_refl)). discriminate.
Defined.

(** C9. In every state reachable from the standard initial board by
    calls of [make_move] the board is well formed and holds at most one
    White King and at most one Black King: relocation moves one piece,
    promotion writes queens only, and the explosion only empties
    squares. *)
Theorem at_most_one_king (st : state) :
  reachable st -> wf_state st /\ kings_inv (_board st).
Proof.
  induction 1 as [st Hinit|st f t o st' Hreach [Hwf [HK Hk]] Hmove].
  - rewrite init_initial_state in Hinit. injection Hinit as <-.
    split; [exact wf_initial_state|]. unfold kings_inv. cbn. lia.
  - destruct (make_move_cases st f t Hwf)
      as [[_ E]|[(_ & _ & E)|[(_ & e & _ & E)
          |(_ & _ & fr & fc & tr & tc & Hf & Ht & E)]]];
      rewrite E in Hmove; injection Hmove as _ <-;
      try (split; [exact Hwf|split; assumption]).
    pose proof (position_index_in_bounds _ _ _ Hf) as Hfi.
    pose proof (position_index_in_bounds _ _ _ Ht) as Hti.
    split; [now apply after_move_wf|].
    pose proof (after_move_kings st fr fc tr tc "K" Hwf Hfi Hti (or_introl eq_refl)).
    pose proof (after_move_kings st fr fc tr tc "k" Hwf Hfi Hti (or_intror eq_refl)).
    unfold kings_inv. lia.
Qed.

Lemma at_most_one_king_witness :
  wf_state kings_adjacent /\ kings_inv (_board kings_adjacent).
Proof.
  apply (at_most_one_king kings_adjacent).
  change kings_adjacent
    with (play [("e2", "e4"); ("e7", "e5"); ("e1", "e2"); ("e8", "e7");
                ("e2", "f3"); ("e7", "f6"); ("f3", "g4"); ("f6", "g5")]%string
               initial_state).
  apply reachable_play. apply reachable_init. reflexivity.
Defined.




(** C3. On a well-formed board [valid_move] returns True exactly when
    both strings parse to squares, the from-square holds a piece of the
    colour to move, the to-square holds no piece of that colour (an
    opposing king may be taken), and the rule of the moving piece's kind
    accepts the move, path clearance included. *)
Theorem valid_move_iff_legal (st : state) (f t : string) :
  wf_state st -> (valid_move st f t = Ok true <-> is_legal st f t).
Proof.
  intros Hwf. split.
  - intros H. destruct (valid_move_unparsed st f t H) as (fr & fc & tr & tc & Hf & Ht).
    pose proof (position_index_in_bounds _ _ _ Hf) as Hfi.
    pose proof (position_index_in_bounds _ _ _ Ht) as Hti.
    pose proof (valid_cell_cell _ fr fc Hwf Hfi) as Hvf.
    pose proof (valid_cell_cell _ tr tc Hwf Hti) as Hvt.
    destruct (own_color (_turn st) (cell (_board st) fr fc)) eqn:Hown.
    + apply own_color_holds in Hown as [k Hk]; auto.
      rewrite (valid_move_own st k f t fr fc tr tc Hwf Hf Ht Hk) in H.
      destruct (own_color (_turn st) (cell (_board st) tr tc)) eqn:Hto;
        [discriminate H|].
      assert (Hne : (fr, fc) <> (tr, tc)).
      { intros [= -> ->]. rewrite Hk, own_color_piece in Hto.
        destruct (_turn st); discriminate Hto. }
      destruct (dispatch_spec _ _ k f t fr fc tr tc Hwf Hf Ht Hk Hne) as (res & Hd & Hr).
      rewrite Hd in H. injection H as ->.
      exists fr, fc, tr, tc, k. repeat split; auto; [|now apply Hr].
      intros Hh. apply own_color_holds in Hh; auto. congruence.
    + rewrite (valid_move_foreign st f t fr fc tr tc Hwf Hf Ht) in H; [discriminate H|].
      intros Hh. apply own_color_holds in Hh; auto. congruence.
  - intros (fr & fc & tr & tc & k & Hf & Ht & Hk & Hnot & Hrule).
    pose proof (position_index_in_bounds _ _ _ Ht) as Hti.
    pose proof (valid_cell_cell _ tr tc Hwf Hti) as Hvt.
    rewrite (valid_move_own st k f t fr fc tr tc Hwf Hf Ht Hk).
    destruct (own_color (_turn st) (cell (_board st) tr tc)) eqn:Hto.
    { exfalso. apply Hnot. now apply own_color_holds. }
    assert (Hne : (fr, fc) <> (tr, tc)).
    { intros [= -> ->]. rewrite Hk, own_color_piece in Hto.
      destruct (_turn st); discriminate Hto. }
    destruct (dispatch_spec _ _ k f t fr fc tr tc Hwf Hf Ht Hk Hne) as (res & Hd & Hr).
    rewrite Hd. f_equal. now apply Hr.
Qed.

Lemma valid_move_iff_legal_witness :
  is_legal initial_state "e2" "e4" /\ ~ is_legal initial_state "b1" "b3".
Proof.
  split.
  - apply (proj1 (valid_move_iff_legal initial_state "e2" "e4" wf_initial_state)).
    reflexivity.
  - intros H.
    apply (proj2 (valid_move_iff_legal initial_state "b1" "b3" wf_initial_state)) in H.
    discriminate H.
Defined.

(** C10. On a well-formed board [valid_move s s] returns False for
    every string [s] that parses to a square: the square is empty, or
    its piece is not the mover's, or it is and the own-colour test on the
    destination rejects the move before any per-piece rule is asked;
    [king_move] alone accepts the zero displacement. *)
Theorem null_move_rejected (st : state) (s : string) (r c : Z) :
  wf_state st -> position_index s = Ok (Some (r, c)) ->
  valid_move st s s = Ok false
  /\ (cell (_board st) r c = "."%char
      \/ ~ holds_piece_of (_turn st) (cell (_board st) r c)
      \/ own_color (_turn st) (cell (_board st) r c) = true)
  /\ king_move s s = Ok true.
Proof.
  intros Hwf Hs.
  pose proof (position_index_in_bounds _ _ _ Hs) as Hi.
  pose proof (valid_cell_cell _ r c Hwf Hi) as Hv.
  split; [|split].
  - destruct (own_color (_turn st) (cell (_board st) r c)) eqn:Hown.
    + pose proof Hown as Hown'. apply own_color_holds in Hown' as [k Hk]; auto.
      rewrite (valid_move_own st k s s r c r c Hwf Hs Hs Hk), Hown. reflexivity.
    + apply (valid_move_foreign st s s r c r c Hwf Hs Hs).
      intros Hh. apply own_color_holds in Hh; auto. congruence.
  - destruct (own_color (_turn st) (cell (_board st) r c)) eqn:Hown; [auto|].
    right. left. intros Hh. apply own_color_holds in Hh; auto. congruence.
  - unfold king_move. rewrite Hs. cbn [bind]. rewrite !Z.sub_diag. reflexivity.
Qed.

Lemma null_move_rejected_witness :
  valid_move initial_state "e1" "e1" = Ok false /\ king_move "e1" "e1" = Ok true.
Proof.
  pose proof (null_move_rejected initial_state "e1" 7 4 wf_initial_state eq_refl)
    as (H1 & _ & H2).
  exact (conj H1 H2).
Defined.

(** C5 on the code.  [position_index] does not return (None, None) on
    every string outside [a-h][1-8]: a column letter followed by a
    superscript digit passes the [isdigit] guard and [int] then raises
    ValueError. *)
Theorem position_index_superscript_raises :
  isdigit superscript_two = true
  /\ ~ matches_algebraic a_superscript_two
  /\ position_index a_superscript_two = Raise ValueError
  /\ position_index a_superscript_two <> Ok None.
Proof.
  split; [reflexivity|]. split; [|split; [reflexivity|discriminate]].
  intros (p0 & p1 & E & _ & H). injection E as <- <-.
  change (code superscript_two) with 178 in H. lia.
Qed.

(** Among the strings of the model, whose characters lie below U+0100:
    a square is returned exactly on the strings [a-h][1-8], and every
    other string yields (None, None) unless its second character is one
    of the three superscript digits.  (Python strings with a digit
    beyond U+00FF in second place, which [int] converts or rejects, are
    not strings of the model.) *)
Lemma position_index_square_iff (s : string) :
  (exists r c, position_index s = Ok (Some (r, c))) <-> matches_algebraic s.
Proof.
  split.
  - intros (r & c & H).
    destruct (position_index_inv s r c H) as (p0 & p1 & E & H0 & H1 & _).
    now exists p0, p1.
  - intros (p0 & p1 & -> & H0 & H1). eexists _, _.
    now apply position_index_algebraic.
Qed.

Lemma position_index_rejects (s : string) :
  ~ matches_algebraic s ->
  (forall p0 p1, s = String p0 (String p1 EmptyString) ->
                 code p1 <> 178 /\ code p1 <> 179 /\ code p1 <> 185) ->
  position_index s = Ok None.
Proof.
  intros Hno Hsup.
  destruct (position_index_cases s) as [[[[r c]|] H]|H].
  - exfalso. apply Hno. apply position_index_square_iff. eauto.
  - exact H.
  - exfalso. destruct s as [|p0 [|p1 [|p2 s]]];
      try (rewrite position_index_other in H by (cbn; lia); discriminate H).
    rewrite position_index_two in H.
    destruct (existsb (Ascii.eqb p0) _columns) eqn:Hm; [|discriminate H].
    destruct (column_index p0 Hm) as [Hidx _]. rewrite Hidx in H.
    destruct (isdigit p1) eqn:Hd; [|discriminate H]. cbn [negb orb bind] in H.
    unfold int in H.
    destruct ((48 <=? code p1) && (code p1 <=? 57)) eqn:Hdec.
    + cbn [bind] in H.
      match type of H with (if ?c then _ else _) = _ => destruct c end; discriminate H.
    + unfold isdigit in Hd. rewrite Hdec in Hd. cbn [orb] in Hd.
      destruct (Hsup p0 p1 eq_refl) as (H1 & H2 & H3).
      apply Z.eqb_neq in H1, H2, H3. rewrite H1, H2, H3 in Hd. discriminate Hd.
Qed.

(** C8. Between two squares on a common rank, file or diagonal of a
    well-formed board [clear_path] returns: its walk goes from square to
    square of the board up to the destination (seven iterations are
    enough), and it answers True exactly when every square strictly
    between the two is empty, which is so whenever they are adjacent.
    [rook_move] and [bishop_move] (and through them [queen_move]) call it
    only under guards that establish the alignment, so that on two
    squares they return, True exactly when the guard holds and the path
    is clear; and whatever the two strings are, none of the three runs
    on for ever or leaves the board. *)
Theorem clear_path_correct (b : board) (f t : string) (fr fc tr tc : Z) :
  wf_board b ->
  (position_index f = Ok (Some (fr, fc)) ->
   position_index t = Ok (Some (tr, tc)) ->
   (aligned fr fc tr tc ->
    (exists res, clear_path b f t = Ok res
                 /\ (res = true <-> path_clear b fr fc tr tc))
    /\ (forall fuel, (7 <= fuel)%nat ->
          exists res, clear_path_fuel fuel b f t = Ok res
                      /\ (res = true <-> path_clear b fr fc tr tc))
    /\ (forall k, 0 <= k <= distance fr fc tr tc ->
          in_bounds (fr + k * Z.sgn (tr - fr)) (fc + k * Z.sgn (tc - fc)))
    /\ (tr = fr + distance fr fc tr tc * Z.sgn (tr - fr)
        /\ tc = fc + distance fr fc tr tc * Z.sgn (tc - fc))
    /\ (distance fr fc tr tc <= 1 -> clear_path b f t = Ok true))
   /\ rook_move b f t
      = (if (fr =? tr) || (fc =? tc) then clear_path b f t else Ok false)
   /\ ((fr =? tr) || (fc =? tc) = true -> aligned fr fc tr tc)
   /\ bishop_move b f t
      = (if Z.abs (tr - fr) =? Z.abs (tc - fc) then clear_path b f t else Ok false)
   /\ ((Z.abs (tr - fr) =? Z.abs (tc - fc)) = true -> aligned fr fc tr tc)
   /\ queen_move b f t = or_else (rook_move b f t) (bishop_move b f t)
   /\ (exists res, rook_move b f t = Ok res
                   /\ (res = true <->
                       (fr = tr \/ fc = tc) /\ path_clear b fr fc tr tc))
   /\ (exists res, bishop_move b f t = Ok res
                   /\ (res = true <->
                       Z.abs (tr - fr) = Z.abs (tc - fc)
                       /\ path_clear b fr fc tr tc))
   /\ (exists res, queen_move b f t = Ok res
                   /\ (res = true <->
                       (fr = tr \/ fc = tc \/ Z.abs (tr - fr) = Z.abs (tc - fc))
                       /\ path_clear b fr fc tr tc)))
  /\ (rook_move b f t <> OutOfFuel /\ rook_move b f t <> Raise IndexError)
  /\ (bishop_move b f t <> OutOfFuel /\ bishop_move b f t <> Raise IndexError)
  /\ (queen_move b f t <> OutOfFuel /\ queen_move b f t <> Raise IndexError).
Proof.
  intros Hwf. split.
  - intros Hf Ht.
    pose proof (position_index_in_bounds _ _ _ Hf) as [Hfr Hfc].
    pose proof (position_index_in_bounds _ _ _ Ht) as [Htr Htc].
    split; [|repeat split].
    + intros Hal. split; [|split; [|split; [|split]]].
      * now apply clear_path_aligned.
      * intros fuel Hfuel. now apply clear_path_fuel_aligned.
      * intros k Hk. destruct (aligned_target fr fc tr tc Hal) as [Er Ec].
        unfold in_bounds, distance in *.
        destruct (Z.sgn_spec (tr - fr)) as [[? E1]|[[? E1]|[? E1]]];
          destruct (Z.sgn_spec (tc - fc)) as [[? E2]|[[? E2]|[? E2]]];
          rewrite E1, E2 in *; lia.
      * now apply aligned_target.
      * intros Hd.
        destruct (clear_path_aligned b f t fr fc tr tc Hwf Hf Ht Hal)
          as (res & -> & Hres).
        f_equal. apply Hres. intros k Hk. lia.
    + unfold rook_move. rewrite Hf, Ht. reflexivity.
    + intros H. apply orb_true_iff in H as [H|H]; apply Z.eqb_eq in H;
        [left|right; left]; exact H.
    + unfold bishop_move. rewrite Hf, Ht. reflexivity.
    + intros H. apply Z.eqb_eq in H. right. right. exact H.
    + now apply rook_move_spec.
    + now apply bishop_move_spec.
    + destruct (queen_move_spec b f t fr fc tr tc Hwf Hf Ht) as (res & H & Hiff).
      exists res. split; [exact H|]. rewrite Hiff. unfold rook_rule. tauto.
  - assert (HR : (exists res, rook_move b f t = Ok res)
                 \/ rook_move b f t = Raise TypeError
                 \/ rook_move b f t = Raise ValueError).
    { destruct (position_index_cases f) as [[[[r1 c1]|] Hf]|Hf],
               (position_index_cases t) as [[[[r2 c2]|] Ht]|Ht];
        try (destruct (rook_move_spec b f t r1 c1 r2 c2 Hwf Hf Ht) as (res & H & _);
             left; eauto; fail);
        unfold rook_move; rewrite Hf, ?Ht; cbn [bind];
        unfold clear_path, clear_path_fuel; rewrite ?Hf, ?Ht; cbn [bind]; eauto. }
    assert (HB : (exists res, bishop_move b f t = Ok res)
                 \/ bishop_move b f t = Raise TypeError
                 \/ bishop_move b f t = Raise ValueError).
    { destruct (position_index_cases f) as [[[[r1 c1]|] Hf]|Hf],
               (position_index_cases t) as [[[[r2 c2]|] Ht]|Ht];
        try (destruct (bishop_move_spec b f t r1 c1 r2 c2 Hwf Hf Ht) as (res & H & _);
             left; eauto; fail);
        unfold bishop_move; rewrite Hf, ?Ht; cbn [bind]; eauto. }
    assert (HQ : (exists res, queen_move b f t = Ok res)
                 \/ queen_move b f t = Raise TypeError
                 \/ queen_move b f t = Raise ValueError).
    { unfold queen_move, or_else.
      destruct HR as [[[|] ->]|[-> | ->]]; cbn [bind]; eauto. }
    repeat split; intros E;
      [destruct HR as [[res H]|[H|H]]|destruct HR as [[res H]|[H|H]]
      |destruct HB as [[res H]|[H|H]]|destruct HB as [[res H]|[H|H]]
      |destruct HQ as [[res H]|[H|H]]|destruct HQ as [[res H]|[H|H]]];
      congruence.
Qed.

Lemma clear_path_correct_witness :
  clear_path standard_board "a1" "a2" = Ok true
  /\ clear_path standard_board "a1" "a8" = Ok false
  /\ rook_move standard_board "a1" "a8" = Ok false.
Proof.
  pose proof (clear_path_correct standard_board "a1" "a2" 7 0 6 0
                wf_initial_state) as [H _].
  specialize (H eq_refl eq_refl). destruct H as [H _].
  destruct H as (_ & _ & _ & _ & Hadj); [right; left; reflexivity|].
  pose proof (clear_path_correct standard_board "a1" "a8" 7 0 0 0
                wf_initial_state) as [H' _].
  specialize (H' eq_refl eq_refl). destruct H' as (Hal & Hrook & _).
  destruct Hal as ((res & Hres & Hiff) & _); [right; left; reflexivity|].
  assert (Hfalse : res = false).
  { destruct res; [|reflexivity]. exfalso.
    pose proof (proj1 Hiff eq_refl 1) as Hk.
    assert (Hcell : cell standard_board (7 + 1 * Z.sgn (0 - 7)) (0 + 1 * Z.sgn (0 - 0))
                    = "."%char) by (apply Hk; unfold distance; cbn; lia).
    discriminate Hcell. }
  subst res. split; [|split].
  - apply Hadj. unfold distance. cbn. lia.
  - exact Hres.
  - rewrite Hrook. exact Hres.
Defined.

(** * Further properties of the code *)

(** ** position_index *)

(** X1. What [position_index] does with a string, by the shape of the
    string.  A square it returns lies on the board, and the string then
    has two characters, the first a column letter that gives the column.
    A column letter followed by a digit 1..8 gives the square of that
    column and of row 8 minus the digit; followed by 0 or 9, or by a
    character that is no digit, it gives (None, None); followed by one
    of the superscript digits U+00B2, U+00B3, U+00B9 it raises
    ValueError.  A string whose first character is no column letter, or
    whose length is not two, gives (None, None).  No exception other
    than ValueError is raised. *)
Theorem position_index_outcomes (s : string) :
  (forall r c, position_index s = Ok (Some (r, c)) ->
     in_bounds r c /\ String.length s = 2%nat
     /\ exists p0, String.get 0 s = Some p0
                   /\ 97 <= code p0 <= 104 /\ c = code p0 - 97)
  /\ (forall p0 p1, s = String p0 (String p1 EmptyString) ->
        97 <= code p0 <= 104 ->
        (49 <= code p1 <= 56 ->
         position_index s = Ok (Some (8 - (code p1 - 48), code p0 - 97)))
        /\ (code p1 = 48 \/ code p1 = 57 -> position_index s = Ok None)
        /\ (isdigit p1 = false -> position_index s = Ok None)
        /\ (code p1 = 178 \/ code p1 = 179 \/ code p1 = 185 ->
            position_index s = Raise ValueError))
  /\ (forall p0 p1, s = String p0 (String p1 EmptyString) ->
        ~ 97 <= code p0 <= 104 -> position_index s = Ok None)
  /\ (String.length s <> 2%nat -> position_index s = Ok None)
  /\ (forall e, position_index s = Raise e -> e = ValueError)
  /\ position_index s <> OutOfFuel.
Proof.
  split; [|split; [|split; [|split; [|split]]]].
  - intros r c H. split; [now apply position_index_in_bounds in H|].
    destruct (position_index_inv s r c H) as (p0 & p1 & -> & H0 & _ & _ & Hc).
    split; [reflexivity|]. exists p0. split; [reflexivity|]. split; assumption.
  - intros p0 p1 -> H0.
    pose proof (column_member p0 H0) as Hm.
    destruct (column_index p0 Hm) as [Hidx _].
    split; [|split; [|split]].
    + intros H1. now apply position_index_algebraic.
    + intros H1. rewrite position_index_two, Hm, Hidx.
      assert (Hd : isdigit p1 = true).
      { unfold isdigit. destruct H1 as [E|E]; rewrite E; reflexivity. }
      rewrite Hd. cbn [negb orb bind]. unfold int.
      replace ((48 <=? code p1) && (code p1 <=? 57)) with true
        by (symmetry; apply andb_true_iff; split; lia).
      cbn [bind].
      replace ((0 <=? code p0 - 97) && (code p0 - 97 <? 8)
               && (0 <=? 8 - (code p1 - 48)) && (8 - (code p1 - 48) <? 8))
        with false; [reflexivity|].
      symmetry. destruct H1 as [E|E]; rewrite E.
      * apply andb_false_iff. right. reflexivity.
      * apply andb_false_iff. left. apply andb_false_iff. right. reflexivity.
    + intros Hd. rewrite position_index_two, Hm, Hd. reflexivity.
    + intros H1. rewrite position_index_two, Hm, Hidx.
      assert (Hd : isdigit p1 = true).
      { unfold isdigit. destruct H1 as [E|[E|E]]; rewrite E; reflexivity. }
      rewrite Hd. cbn [negb orb bind]. unfold int.
      replace ((48 <=? code p1) && (code p1 <=? 57)) with false
        by (symmetry; apply andb_false_iff; right; apply Z.leb_gt; lia).
      reflexivity.
  - intros p0 p1 -> H0. rewrite position_index_two.
    destruct (existsb (Ascii.eqb p0) _columns) eqn:Hm; [|reflexivity].
    destruct (column_index p0 Hm) as [_ Hcol]. contradiction.
  - apply position_index_other.
  - intros e H. destruct (position_index_cases s) as [[o H']|H']; congruence.
  - intros H. destruct (position_index_cases s) as [[o H']|H']; congruence.
Qed.

(** ** The rules that do not look at the path *)

(** X3. [knight_move] and [king_move] give the same outcome in both
    directions, whatever the two strings are: the same answer on two
    squares, and the same exception otherwise. *)
Theorem knight_king_symmetric (f t : string) :
  knight_move f t = knight_move t f /\ king_move f t = king_move t f.
Proof.
  assert (Habs : forall a b, Z.abs (a - b) = Z.abs (b - a)) by (intros; lia).
  unfold knight_move, king_move.
  destruct (position_index_cases f) as [[[[fr fc]|] Hf]|Hf],
           (position_index_cases t) as [[[[tr tc]|] Ht]|Ht];
    rewrite Hf, Ht; cbn [bind]; try (split; reflexivity).
  rewrite (Habs tr fr), (Habs tc fc). split; reflexivity.
Qed.

(** ** The sliding rules *)

Lemma distance_sym (fr fc tr tc : Z) : distance tr tc fr fc = distance fr fc tr tc.
Proof. unfold distance. lia. Qed.

Lemma aligned_sym (fr fc tr tc : Z) : aligned fr fc tr tc -> aligned tr tc fr fc.
Proof. unfold aligned. lia. Qed.

Lemma path_clear_reverse (b : board) (fr fc tr tc : Z) :
  aligned fr fc tr tc -> path_clear b fr fc tr tc -> path_clear b tr tc fr fc.
Proof.
  intros Hal H k Hk. rewrite distance_sym in Hk.
  destruct (aligned_target fr fc tr tc Hal) as [Er Ec].
  specialize (H (distance fr fc tr tc - k) ltac:(lia)).
  assert (Sr : Z.sgn (fr - tr) = - Z.sgn (tr - fr))
    by (rewrite <- Z.sgn_opp; f_equal; lia).
  assert (Sc : Z.sgn (fc - tc) = - Z.sgn (tc - fc))
    by (rewrite <- Z.sgn_opp; f_equal; lia).
  rewrite Sr, Sc.
  replace (tr + k * - Z.sgn (tr - fr))
    with (fr + (distance fr fc tr tc - k) * Z.sgn (tr - fr)) by lia.
  replace (tc + k * - Z.sgn (tc - fc))
    with (fc + (distance fr fc tr tc - k) * Z.sgn (tc - fc)) by lia.
  exact H.
Qed.

Lemma path_clear_sym (b : board) (fr fc tr tc : Z) :
  aligned fr fc tr tc -> (path_clear b fr fc tr tc <-> path_clear b tr tc fr fc).
Proof.
  intros Hal. split; apply path_clear_reverse; auto using aligned_sym.
Qed.

Lemma bool_iff_eq (x y : bool) : (x = true <-> y = true) -> x = y.
Proof. destruct x, y; intuition congruence. Qed.

Lemma clear_path_unparsed (b : board) (f t : string) :
  position_index f = Ok None \/ position_index t = Ok None ->
  (exists o, position_index f = Ok o) -> (exists o, position_index t = Ok o) ->
  clear_path b f t = Raise TypeError.
Proof.
  intros H [o Hf] [o' Ht]. unfold clear_path, clear_path_fuel.
  rewrite Hf, Ht in *. cbn [bind].
  destruct H as [[= ->]|[= ->]]; [reflexivity|]. destruct o as [[? ?]|]; reflexivity.
Qed.

(** X4. On a well-formed board [rook_move], [bishop_move] and
    [queen_move] give the same outcome from A to B as from B to A, for
    any two strings: the squares between are the same in both
    directions, and the exceptions coincide. *)
Theorem sliding_moves_symmetric (b : board) (f t : string) :
  wf_board b ->
  rook_move b f t = rook_move b t f
  /\ bishop_move b f t = bishop_move b t f
  /\ queen_move b f t = queen_move b t f.
Proof.
  intros Hwf.
  assert (Hrook : rook_move b f t = rook_move b t f).
  { destruct (position_index_cases f) as [[[[fr fc]|] Hf]|Hf],
             (position_index_cases t) as [[[[tr tc]|] Ht]|Ht];
      try (unfold rook_move; rewrite Hf, Ht; reflexivity).
    - destruct (rook_move_spec b f t fr fc tr tc Hwf Hf Ht) as (r1 & -> & H1).
      destruct (rook_move_spec b t f tr tc fr fc Hwf Ht Hf) as (r2 & -> & H2).
      f_equal. apply bool_iff_eq. rewrite H1, H2. unfold rook_rule. split.
      + intros [Hg Hp]. split; [lia|]. apply path_clear_sym; auto.
        unfold aligned. lia.
      + intros [Hg Hp]. split; [lia|]. apply path_clear_sym; auto.
        unfold aligned. lia.
    - unfold rook_move. rewrite Hf, Ht. cbn [bind].
      rewrite (clear_path_unparsed b f t), (clear_path_unparsed b t f); eauto. }
  assert (Hbishop : bishop_move b f t = bishop_move b t f).
  { destruct (position_index_cases f) as [[[[fr fc]|] Hf]|Hf],
             (position_index_cases t) as [[[[tr tc]|] Ht]|Ht];
      try (unfold bishop_move; rewrite Hf, Ht; reflexivity).
    destruct (bishop_move_spec b f t fr fc tr tc Hwf Hf Ht) as (r1 & -> & H1).
    destruct (bishop_move_spec b t f tr tc fr fc Hwf Ht Hf) as (r2 & -> & H2).
    f_equal. apply bool_iff_eq. rewrite H1, H2. split.
    - intros [Hg Hp]. split; [lia|]. apply path_clear_sym; auto.
      unfold aligned. lia.
    - intros [Hg Hp]. split; [lia|]. apply path_clear_sym; auto.
      unfold aligned. lia. }
  split; [exact Hrook|]. split; [exact Hbishop|].
  unfold queen_move. now rewrite Hrook, Hbishop.
Qed.

Lemma sliding_moves_symmetric_witness :
  rook_move standard_board "a1" "a8" = rook_move standard_board "a8" "a1"
  /\ bishop_move standard_board "c1" "a3" = bishop_move standard_board "a3" "c1"
  /\ queen_move standard_board "d1" "zz" = queen_move standard_board "zz" "d1".
Proof.
  pose proof (sliding_moves_symmetric standard_board "a1" "a8" wf_initial_state)
    as (H1 & _ & _).
  pose proof (sliding_moves_symmetric standard_board "c1" "a3" wf_initial_state)
    as (_ & H2 & _).
  pose proof (sliding_moves_symmetric standard_board "d1" "zz" wf_initial_state)
    as (_ & _ & H3).
  exact (conj H1 (conj H2 H3)).
Defined.

(** X5. Asked about a move from a square to itself, [rook_move],
    [bishop_move] and [queen_move] answer True on a well-formed board
    (the walk is empty), and [knight_move] answers False; none of the
    rules looks at what stands on the square. *)
Theorem null_displacement_rules (b : board) (s : string) (r c : Z) :
  wf_board b -> position_index s = Ok (Some (r, c)) ->
  rook_move b s s = Ok true
  /\ bishop_move b s s = Ok true
  /\ queen_move b s s = Ok true
  /\ knight_move s s = Ok false.
Proof.
  intros Hwf Hs.
  assert (Hpath : path_clear b r c r c).
  { intros k Hk. unfold distance in Hk. lia. }
  assert (Hrook : rook_move b s s = Ok true).
  { destruct (rook_move_spec b s s r c r c Hwf Hs Hs) as (res & -> & H).
    f_equal. apply H. split; auto. }
  assert (Hbishop : bishop_move b s s = Ok true).
  { destruct (bishop_move_spec b s s r c r c Hwf Hs Hs) as (res & -> & H).
    f_equal. apply H. split; [lia|exact Hpath]. }
  split; [exact Hrook|]. split; [exact Hbishop|]. split.
  - unfold queen_move. rewrite Hrook. reflexivity.
  - unfold knight_move. rewrite Hs. cbn [bind]. rewrite !Z.sub_diag. reflexivity.
Qed.

Lemma null_displacement_rules_witness :
  rook_move standard_board "d4" "d4" = Ok true
  /\ bishop_move standard_board "d4" "d4" = Ok true
  /\ queen_move standard_board "d4" "d4" = Ok true
  /\ knight_move "d4" "d4" = Ok false.
Proof.
  exact (null_displacement_rules standard_board "d4" 4 3 wf_initial_state eq_refl).
Defined.

(** X6. When one of the two strings parses to (None, None) and the
    other to a square, [valid_move] returns False, while the rules
    called on their own behave differently from one another:
    [rook_move] returns False, and [knight_move], [bishop_move],
    [queen_move], [king_move] and [clear_path] raise TypeError.  When
    both strings parse to (None, None), [rook_move] raises TypeError
    too. *)
Theorem unparsed_position_behaviour (st : state) (f t u : string) (sq : Z * Z) :
  position_index f = Ok None ->
  position_index u = Ok None ->
  position_index t = Ok (Some sq) ->
  (valid_move st f t = Ok false /\ valid_move st t f = Ok false
   /\ valid_move st f u = Ok false)
  /\ (rook_move (_board st) f t = Ok false /\ rook_move (_board st) t f = Ok false
      /\ rook_move (_board st) f u = Raise TypeError)
  /\ (knight_move f t = Raise TypeError /\ knight_move t f = Raise TypeError)
  /\ (bishop_move (_board st) f t = Raise TypeError
      /\ bishop_move (_board st) t f = Raise TypeError)
  /\ (queen_move (_board st) f t = Raise TypeError
      /\ queen_move (_board st) t f = Raise TypeError)
  /\ (king_move f t = Raise TypeError /\ king_move t f = Raise TypeError)
  /\ (clear_path (_board st) f t = Raise TypeError
      /\ clear_path (_board st) t f = Raise TypeError).
Proof.
  intros Hf Hu Ht. destruct sq as [tr tc].
  unfold valid_move, queen_move, or_else, rook_move, knight_move, bishop_move,
    king_move, clear_path, clear_path_fuel.
  rewrite Hf, Hu, Ht. cbn [bind]. repeat split; reflexivity.
Qed.

Lemma unparsed_position_behaviour_witness :
  valid_move initial_state "z9" "e4" = Ok false
  /\ rook_move standard_board "z9" "e4" = Ok false
  /\ rook_move standard_board "z9" "" = Raise TypeError
  /\ knight_move "z9" "e4" = Raise TypeError.
Proof.
  pose proof (unparsed_position_behaviour initial_state "z9" "e4" "" (4, 4)
                eq_refl eq_refl eq_refl)
    as ((H1 & _) & (H2 & _ & H3) & (H4 & _) & _).
  exact (conj H1 (conj H2 (conj H3 H4))).
Defined.

(** ** clear_path on squares that are not aligned *)

Lemma getitem_cases {A} (l : list A) (i : Z) :
  (exists x, getitem l i = Ok x) \/ getitem l i = Raise IndexError.
Proof.
  unfold getitem. destruct (norm_index l i <? 0); [now right|].
  destruct (l !! Z.to_nat (norm_index l i)); [left; eauto|now right].
Qed.

Lemma getitem_out_of_range {A} (l : list A) (i : Z) :
  i < - Z.of_nat (length l) \/ Z.of_nat (length l) <= i ->
  getitem l i = Raise IndexError.
Proof.
  intros H. unfold getitem, norm_index.
  destruct (Z.ltb_spec i 0).
  - destruct (Z.ltb_spec (i + Z.of_nat (length l)) 0); [reflexivity|]. lia.
  - destruct (Z.ltb_spec i 0); [lia|].
    rewrite lookup_ge_None_2 by lia. reflexivity.
Qed.

Lemma getitem_row (b : board) (i : Z) (row : list ascii) :
  wf_board b -> getitem b i = Ok row -> length row = 8%nat.
Proof.
  intros [_ Hrows] H. unfold getitem in H.
  destruct (norm_index b i <? 0); [discriminate H|].
  destruct (b !! Z.to_nat (norm_index b i)) as [row'|] eqn:E; [|discriminate H].
  injection H as <-. apply (proj1 (Forall_lookup _ _) Hrows) in E. tauto.
Qed.

Lemma board_get_cases (b : board) (r c : Z) :
  (exists x, board_get b r c = Ok x) \/ board_get b r c = Raise IndexError.
Proof.
  unfold board_get. destruct (getitem_cases b r) as [[row ->]| ->]; [|now right].
  cbn [bind]. apply getitem_cases.
Qed.

Lemma board_get_out_of_range (b : board) (r c : Z) :
  wf_board b -> r < -8 \/ 8 <= r \/ c < -8 \/ 8 <= c ->
  board_get b r c = Raise IndexError.
Proof.
  intros Hwf H. unfold board_get.
  destruct (getitem_cases b r) as [[row Hrow]|Hrow]; rewrite Hrow; [|reflexivity].
  cbn [bind]. pose proof (getitem_row b r row Hwf Hrow) as Hlen.
  destruct H as [H|[H|H]].
  - rewrite getitem_out_of_range in Hrow by (destruct Hwf as [-> _]; lia).
    discriminate Hrow.
  - rewrite getitem_out_of_range in Hrow by (destruct Hwf as [-> _]; lia).
    discriminate Hrow.
  - apply getitem_out_of_range. rewrite Hlen. lia.
Qed.

(** A walk that never meets its destination ends within sixteen steps:
    on a piece, or by leaving the index range of the board. *)
Lemma clear_path_loop_astray (n : nat) :
  forall (fuel : nat) (b : board) (fr fc tr tc sr sc k : Z),
    wf_board b -> in_bounds fr fc ->
    unit_step sr -> unit_step sc -> (sr <> 0 \/ sc <> 0) ->
    (forall j, 1 <= j -> ~ (fr + j * sr = tr /\ fc + j * sc = tc)) ->
    1 <= k -> Z.of_nat n = 16 - k -> (n < fuel)%nat ->
    clear_path_loop fuel b (fr + k * sr) (fc + k * sc) tr tc sr sc = Ok false
    \/ clear_path_loop fuel b (fr + k * sr) (fc + k * sc) tr tc sr sc
       = Raise IndexError.
Proof.
  induction n as [|n IH];
    intros fuel b fr fc tr tc sr sc k Hwf [Hfr Hfc] Hsr Hsc Hstep Hmiss Hk Hn Hfuel;
    (destruct fuel as [|fuel]; [lia|]); cbn [clear_path_loop];
    (assert (Hgo : negb (fr + k * sr =? tr) || negb (fc + k * sc =? tc) = true);
     [ destruct (Z.eqb_spec (fr + k * sr) tr); [|reflexivity];
       destruct (Z.eqb_spec (fc + k * sc) tc); [|reflexivity];
       exfalso; apply (Hmiss k Hk); auto
     | rewrite Hgo ]).
  - rewrite board_get_out_of_range; [now right|exact Hwf|].
    destruct Hsr as [-> | [-> | ->]], Hsc as [-> | [-> | ->]]; lia.
  - destruct (board_get_cases b (fr + k * sr) (fc + k * sc)) as [[x ->]| ->];
      [|now right].
    cbn [bind]. destruct (x =c? "."); cbn [negb]; [|now left].
    replace (fr + k * sr + sr) with (fr + (k + 1) * sr) by lia.
    replace (fc + k * sc + sc) with (fc + (k + 1) * sc) by lia.
    apply IH; auto; try lia. split; assumption.
Qed.

(** X7. On a well-formed board [clear_path] comes to an end for every
    pair of squares, aligned or not, within sixteen iterations.  Between
    squares that share no rank, file or diagonal it never answers True:
    it returns False (the walk met a piece) or raises IndexError (the
    walk left the board). *)
Theorem clear_path_terminates (b : board) (f t : string) (fr fc tr tc : Z)
    (fuel : nat) :
  wf_board b ->
  position_index f = Ok (Some (fr, fc)) ->
  position_index t = Ok (Some (tr, tc)) ->
  (16 <= fuel)%nat ->
  clear_path_fuel fuel b f t <> OutOfFuel
  /\ (aligned fr fc tr tc -> exists res, clear_path_fuel fuel b f t = Ok res)
  /\ (~ aligned fr fc tr tc ->
      clear_path_fuel fuel b f t = Ok false
      \/ clear_path_fuel fuel b f t = Raise IndexError).
Proof.
  intros Hwf Hf Ht Hfuel.
  assert (Hal : aligned fr fc tr tc ->
                exists res, clear_path_fuel fuel b f t = Ok res).
  { intros H.
    destruct (clear_path_fuel_aligned fuel b f t fr fc tr tc Hwf Hf Ht H)
      as (res & Hres & _); [lia|eauto]. }
  assert (Hno : ~ aligned fr fc tr tc ->
                clear_path_fuel fuel b f t = Ok false
                \/ clear_path_fuel fuel b f t = Raise IndexError).
  { intros H.
    pose proof (position_index_in_bounds _ _ _ Hf) as Hfi.
    unfold clear_path_fuel. rewrite Hf, Ht. cbn [bind]. rewrite !step_is_sgn.
    unfold aligned in H.
    assert (Hsr : Z.sgn (tr - fr) = 1 \/ Z.sgn (tr - fr) = -1).
    { destruct (Z.sgn_spec (tr - fr)) as [[? E]|[[? E]|[? E]]]; auto. lia. }
    assert (Hsc : Z.sgn (tc - fc) = 1 \/ Z.sgn (tc - fc) = -1).
    { destruct (Z.sgn_spec (tc - fc)) as [[? E]|[[? E]|[? E]]]; auto. lia. }
    replace (fr + Z.sgn (tr - fr)) with (fr + 1 * Z.sgn (tr - fr)) by lia.
    replace (fc + Z.sgn (tc - fc)) with (fc + 1 * Z.sgn (tc - fc)) by lia.
    assert (Hmiss : forall j, 1 <= j ->
              ~ (fr + j * Z.sgn (tr - fr) = tr /\ fc + j * Z.sgn (tc - fc) = tc)).
    { intros j Hj [E1 E2]. apply H.
      destruct Hsr as [Er|Er], Hsc as [Ec|Ec]; rewrite Er in E1; rewrite Ec in E2; lia. }
    assert (Hur : unit_step (Z.sgn (tr - fr))) by (unfold unit_step; lia).
    assert (Huc : unit_step (Z.sgn (tc - fc))) by (unfold unit_step; lia).
    apply (clear_path_loop_astray 15); auto; lia. }
  split; [|split; assumption].
  intros E. destruct (Z.eq_dec fr tr) as [Er|Er].
  - destruct Hal as [res Hres]; [left; exact Er|congruence].
  - destruct (Z.eq_dec fc tc) as [Ec|Ec].
    + destruct Hal as [res Hres]; [right; left; exact Ec|congruence].
    + destruct (Z.eq_dec (Z.abs (tr - fr)) (Z.abs (tc - fc))) as [Ed|Ed].
      * destruct Hal as [res Hres]; [right; right; exact Ed|congruence].
      * destruct Hno as [H|H]; [unfold aligned; tauto| |]; congruence.
Qed.

Lemma clear_path_terminates_witness :
  clear_path standard_board "a1" "b3" = Ok false
  /\ clear_path standard_board "f4" "h5" = Raise IndexError.
Proof.
  split.
  - destruct (clear_path_terminates standard_board "a1" "b3" 7 0 5 1 path_fuel
                wf_initial_state eq_refl eq_refl (le_n 16)) as (_ & _ & H).
    destruct H as [H|H]; [unfold aligned; cbn; lia|exact H|discriminate H].
  - destruct (clear_path_terminates standard_board "f4" "h5" 4 5 3 7 path_fuel
                wf_initial_state eq_refl eq_refl (le_n 16)) as (_ & _ & H).
    destruct H as [H|H]; [unfold aligned; cbn; lia|discriminate H|exact H].
Defined.

(** ** pawn_move *)

Lemma board_get_negative (b : board) (r c : Z) :
  wf_board b -> -8 <= r < 0 -> 0 <= c < 8 ->
  board_get b r c = Ok (cell b (r + 8) c).
Proof.
  intros Hwf Hr Hc.
  rewrite <- (board_get_cell b (r + 8) c Hwf) by (split; lia).
  unfold board_get, getitem, norm_index. destruct Hwf as [-> _].
  destruct (Z.ltb_spec r 0); [|lia]. destruct (Z.ltb_spec (r + 8) 0); [lia|].
  reflexivity.
Qed.

(** X8. [pawn_move] reads the colour off the from-square (upper case:
    White; anything else, an empty square included: Black) and, on a
    well-formed board and two squares of the board, always returns,
    accepting exactly the three pawn patterns of that colour: one step
    forward onto an empty square, two steps from the starting row over
    two empty squares, one step diagonally forward onto an opposing
    piece.  So an accepted move goes one or two rows forward, at most
    one column aside, and lands on an empty square exactly when it stays
    in its column. *)
Theorem pawn_move_decides (b : board) (fr fc tr tc : Z) :
  wf_board b -> in_bounds fr fc -> in_bounds tr tc ->
  exists res,
    pawn_move b fr fc tr tc = Ok res
    /\ (res = true <->
        pawn_rule b (if isupper (cell b fr fc) then white else black) fr fc tr tc)
    /\ (res = true ->
        1 <= (tr - fr) * forward (if isupper (cell b fr fc) then white else black) <= 2
        /\ Z.abs (tc - fc) <= 1
        /\ (cell b tr tc = "."%char <-> tc = fc)).
Proof.
  intros Hwf Hf Ht.
  set (t := if isupper (cell b fr fc) then white else black).
  assert (Hmain : exists res, pawn_move b fr fc tr tc = Ok res
                              /\ (res = true <-> pawn_rule b t fr fc tr tc)).
  { unfold pawn_move, pawn_rule.
    rewrite board_get_cell by auto. cbn [bind].
    assert (Hdir : (if isupper (cell b fr fc)
                    then (-1, 6, islower) else (1, 1, isupper))
                   = (forward t, start_rank t, own_color (opposite t))).
    { unfold t. destruct (isupper (cell b fr fc)); reflexivity. }
    rewrite Hdir. clear Hdir.
    pose proof (valid_cell_cell b tr tc Hwf Ht) as Hvt.
    pose proof (own_color_holds (opposite t) _ Hvt) as Hown.
    assert (Hfw : forward t = -1 \/ forward t = 1) by (destruct t; auto).
    assert (Hst : start_rank t = 6 /\ forward t = -1
                  \/ start_rank t = 1 /\ forward t = 1) by (destruct t; auto).
    clearbody t.
    destruct Hf as [Hfr Hfc], Ht as [Htr Htc].
    unfold and_then. cbn [bind].
    destruct (Z.eqb_spec tc fc) as [Ec|Ec].
    - subst tc.
      destruct (Z.eqb_spec tr (fr + forward t)) as [E1|E1].
      + rewrite board_get_cell by (auto; split; lia). cbn [bind].
        destruct (Ascii.eqb_spec (cell b tr fc) ".") as [E2|E2].
        * exists true. split; [reflexivity|]. split; auto.
        * destruct (Z.eqb_spec fr (start_rank t)); cbn [bind];
            [destruct (Z.eqb_spec tr (fr + 2 * forward t)); [lia|]|];
            cbn [bind]; exists false; (split; [reflexivity|]);
            (split; [discriminate|]); intros [H|[H|H]]; try tauto; lia.
      + cbn [bind].
        destruct (Z.eqb_spec fr (start_rank t)) as [E3|E3]; cbn [bind].
        * destruct (Z.eqb_spec tr (fr + 2 * forward t)) as [E4|E4]; cbn [bind].
          -- rewrite !board_get_cell by (auto; split; lia). cbn [bind].
             destruct (Ascii.eqb_spec (cell b (fr + forward t) fc) ".") as [E5|E5];
               cbn [bind].
             ++ destruct (Ascii.eqb_spec (cell b tr fc) ".") as [E6|E6].
                ** exists true. split; [reflexivity|]. split; auto.
                   intros _. right. left. tauto.
                ** exists false. split; [reflexivity|]. split; [discriminate|].
                   intros [H|[H|H]]; try tauto; lia.
             ++ exists false. split; [reflexivity|]. split; [discriminate|].
                intros [H|[H|H]]; try tauto; lia.
          -- exists false. split; [reflexivity|]. split; [discriminate|].
             intros [H|[H|H]]; try tauto; lia.
        * exists false. split; [reflexivity|]. split; [discriminate|].
          intros [H|[H|H]]; try tauto; lia.
    - destruct (Z.eqb_spec (Z.abs (tc - fc)) 1) as [E1|E1]; cbn [andb].
      + destruct (Z.eqb_spec tr (fr + forward t)) as [E2|E2].
        * rewrite !board_get_cell by (auto; split; lia). cbn [bind].
          destruct (own_color (opposite t) (cell b tr tc)) eqn:Eo.
          -- rewrite (own_color_not_dot _ _ Eo). cbn [negb].
             exists true. split; [reflexivity|]. split; auto.
             intros _. right. right. repeat split; auto. now apply Hown.
          -- exists false.
             split; [destruct (cell b tr tc =c? "."); reflexivity|].
             split; [discriminate|].
             intros [H|[H|H]]; try tauto; try lia.
        * exists false. split; [reflexivity|]. split; [discriminate|].
          intros [H|[H|H]]; try tauto; lia.
      + exists false. split; [reflexivity|]. split; [discriminate|].
        intros [H|[H|H]]; try tauto; lia. }
  destruct Hmain as (res & Hres & Hiff). exists res.
  split; [exact Hres|]. split; [exact Hiff|].
  intros Htrue. apply Hiff in Htrue. unfold pawn_rule in Htrue.
  assert (Hfw : forward t = -1 \/ forward t = 1) by (destruct t; auto).
  destruct Htrue as [(E1 & E2 & E3)|[(E1 & E2 & E3 & E4 & E5)|(E1 & E2 & [k E3])]].
  - repeat split; try tauto; nia.
  - repeat split; try tauto; nia.
  - split; [nia|]. split; [lia|]. split.
    + intros E. rewrite E in E3. symmetry in E3. now apply piece_char_not_dot in E3.
    + intros E. lia.
Qed.

Lemma pawn_move_decides_witness :
  pawn_move standard_board 6 4 4 4 = Ok true
  /\ pawn_move standard_board 6 4 3 4 = Ok false.
Proof.
  split.
  - destruct (pawn_move_decides standard_board 6 4 4 4 wf_initial_state)
      as (res & H & _); [unfold in_bounds; lia|unfold in_bounds; lia|].
    rewrite H. f_equal. now injection H.
  - destruct (pawn_move_decides standard_board 6 4 3 4 wf_initial_state)
      as (res & H & _); [unfold in_bounds; lia|unfold in_bounds; lia|].
    rewrite H. f_equal. now injection H.
Defined.

(** X9. [pawn_move] does no bounds check of its own.  Asked to move a
    White pawn from row 0 to row -1 it reads row 7 through Python's
    negative index and accepts when that square is empty; asked to move
    a Black pawn from row 7 to row 8 it raises IndexError. *)
Theorem pawn_move_off_board (b : board) (c : Z) :
  wf_board b -> 0 <= c < 8 ->
  (isupper (cell b 0 c) = true -> cell b 7 c = "."%char ->
   pawn_move b 0 c (-1) c = Ok true)
  /\ (isupper (cell b 7 c) = false -> pawn_move b 7 c 8 c = Raise IndexError).
Proof.
  intros Hwf Hc. split.
  - intros Hup Hdot. unfold pawn_move.
    rewrite board_get_cell by (auto; unfold in_bounds; lia). cbn [bind].
    rewrite Hup. rewrite Z.eqb_refl. unfold and_then. cbn [bind Z.eqb Z.add].
    rewrite board_get_negative by (auto; lia).
    change (-1 + 8) with 7. rewrite Hdot. reflexivity.
  - intros Hup. unfold pawn_move.
    rewrite board_get_cell by (auto; unfold in_bounds; lia). cbn [bind].
    rewrite Hup. rewrite Z.eqb_refl. unfold and_then. cbn [bind Z.eqb Z.add].
    rewrite board_get_out_of_range by (auto; lia). reflexivity.
Qed.

Lemma pawn_move_off_board_witness :
  pawn_move (_board pawn_on_e7) 7 4 8 4 = Raise IndexError.
Proof.
  apply (pawn_move_off_board (_board pawn_on_e7) 4).
  - apply wf_rows_check. reflexivity.
  - lia.
  - reflexivity.
Defined.

(** ** move_piece *)

(** X10. [move_piece] on two squares of a well-formed board copies the
    content of the from-square to the to-square and empties the
    from-square, whatever the two hold and whether or not the move is
    legal; every other square, the turn and the game state stay as they
    are.  When both strings name the same square the piece on it is
    erased. *)
Theorem move_piece_effect (st : state) (f t : string) (fr fc tr tc : Z) :
  wf_state st ->
  position_index f = Ok (Some (fr, fc)) ->
  position_index t = Ok (Some (tr, tc)) ->
  exists st',
    move_piece f t st = (Ok tt, st')
    /\ wf_state st'
    /\ _turn st' = _turn st
    /\ _current_game_state st' = _current_game_state st
    /\ (forall r c, in_bounds r c ->
          cell (_board st') r c
          = if same_square r c fr fc then "."%char
            else if same_square r c tr tc then cell (_board st) fr fc
            else cell (_board st) r c)
    /\ cell (_board st') fr fc = "."%char.
Proof.
  intros Hwf Hf Ht.
  pose proof (position_index_in_bounds _ _ _ Hf) as Hfi.
  pose proof (position_index_in_bounds _ _ _ Ht) as Hti.
  exists (with_board st (moved (_board st) fr fc tr tc)).
  split; [now apply move_piece_run|].
  split; [unfold wf_state; cbn [with_board _board]; now apply wf_moved|].
  split; [reflexivity|]. split; [reflexivity|].
  cbn [with_board _board]. split.
  - intros r c Hi. now apply cell_moved.
  - rewrite cell_moved by auto. unfold same_square. now rewrite !Z.eqb_refl.
Qed.

Lemma move_piece_effect_witness :
  exists st',
    move_piece "e1" "e1" initial_state = (Ok tt, st')
    /\ cell (_board st') 7 4 = "."%char.
Proof.
  destruct (move_piece_effect initial_state "e1" "e1" 7 4 7 4
              wf_initial_state eq_refl eq_refl)
    as (st' & H1 & _ & _ & _ & _ & H2).
  exists st'. exact (conj H1 H2).
Defined.

(** ** explode_capture *)

Lemma blast_state_none (st : state) : blast_state (fun _ _ => false) st st.
Proof.
  unfold blast_state. split; [reflexivity|].
  split; intros _ (r & c & _ & H & _); discriminate H.
Qed.

Lemma blast_none (st : state) : wf_state st -> blast (fun _ _ => false) st st.
Proof.
  intros Hwf. unfold blast. split; [exact Hwf|]. split; [reflexivity|].
  split; [reflexivity|]. split; [reflexivity|]. now left.
Qed.

Lemma exploded_square_game_state (st : state) (r c : Z) :
  wf_state st ->
  _current_game_state (exploded_square st r c)
  = if on_board r c && (cell (_board st) r c =c? "k") then BLACK_WON
    else if on_board r c && (cell (_board st) r c =c? "K") then WHITE_WON
    else _current_game_state st.
Proof.
  intros Hwf. unfold exploded_square.
  destruct (on_board r c) eqn:Hon; cbn [andb]; [|reflexivity].
  apply on_board_in_bounds in Hon.
  destruct (valid_cell_cases _ (valid_cell_cell _ r c Hwf Hon)) as [E|[[k E]|[k E]]];
    rewrite E; [reflexivity|destruct k; reflexivity|destruct k; reflexivity].
Qed.

(** One more square: the state rule is kept. *)
Lemma blast_state_step (P : Z -> Z -> bool) (st st1 : state) (r c : Z) :
  blast P st st1 -> blast_state P st st1 ->
  blast_state (fun r' c' => P r' c' || same_square r' c' r c) st
    (exploded_square st1 r c).
Proof.
  intros (Hwf1 & _ & Hcell & _ & _) (H0 & Hk & HK).
  pose proof (exploded_square_game_state st1 r c Hwf1) as Hgs.
  assert (Hmono : forall x, holds_in P (_board st) x ->
            holds_in (fun r' c' => P r' c' || same_square r' c' r c) (_board st) x).
  { intros x (r' & c' & Hi & HP & Hx). exists r', c'. rewrite HP. auto. }
  assert (Hback : forall x, x <> "."%char ->
            (on_board r c && (cell (_board st1) r c =c? x) = false) ->
            holds_in (fun r' c' => P r' c' || same_square r' c' r c) (_board st) x ->
            holds_in P (_board st) x).
  { intros x Hx Hnot (r' & c' & Hi & HP & Hc).
    destruct (P r' c') eqn:EP; [exists r', c'; auto|].
    cbn [orb] in HP. unfold same_square in HP.
    apply andb_true_iff in HP as [E1 E2]. apply Z.eqb_eq in E1, E2. subst r' c'.
    exfalso. rewrite (proj2 (on_board_in_bounds r c) Hi) in Hnot. cbn [andb] in Hnot.
    rewrite Hcell, EP, Hc in Hnot by auto. rewrite Ascii.eqb_refl in Hnot.
    discriminate Hnot. }
  assert (Hhere : forall x, x <> "."%char ->
            on_board r c && (cell (_board st1) r c =c? x) = true ->
            holds_in (fun r' c' => P r' c' || same_square r' c' r c) (_board st) x).
  { intros x Hx Hyes. apply andb_true_iff in Hyes as [Hon Hc].
    apply on_board_in_bounds in Hon. apply Ascii.eqb_eq in Hc.
    rewrite Hcell in Hc by auto.
    destruct (P r c) eqn:EP; [congruence|].
    exists r, c. rewrite EP. unfold same_square. rewrite !Z.eqb_refl. auto. }
  assert (Dk : "k"%char <> "."%char) by discriminate.
  assert (DK : "K"%char <> "."%char) by discriminate.
  unfold blast_state. rewrite Hgs. clear Hgs.
  destruct (on_board r c && (cell (_board st1) r c =c? "k")) eqn:Ek.
  { pose proof (Hhere _ Dk Ek). repeat split; intros; tauto. }
  destruct (on_board r c && (cell (_board st1) r c =c? "K")) eqn:EK.
  { pose proof (Hhere _ DK EK). repeat split; intros; tauto. }
  pose proof (Hback _ Dk Ek). pose proof (Hback _ DK EK).
  pose proof (Hmono "k"%char). pose proof (Hmono "K"%char).
  split; [|split]; intros; [apply H0|apply Hk|apply HK]; tauto.
Qed.

Lemma blast_state_ext (P Q : Z -> Z -> bool) (st st' : state) :
  (forall r c, in_bounds r c -> P r c = Q r c) ->
  blast_state P st st' -> blast_state Q st st'.
Proof.
  intros HPQ (H0 & Hk & HK).
  assert (Hiff : forall x, holds_in Q (_board st) x <-> holds_in P (_board st) x).
  { intros x. split; intros (r & c & Hi & HP & Hx); exists r, c;
      [rewrite HPQ|rewrite <- HPQ]; auto. }
  unfold blast_state. rewrite !Hiff. auto.
Qed.

Lemma blast_both_step (P : Z -> Z -> bool) (st st1 : state) (r c : Z) :
  blast P st st1 /\ blast_state P st st1 ->
  blast (fun r' c' => P r' c' || same_square r' c' r c) st (exploded_square st1 r c)
  /\ blast_state (fun r' c' => P r' c' || same_square r' c' r c) st
       (exploded_square st1 r c).
Proof.
  intros [H1 H2]. split; [|now apply blast_state_step].
  eapply blast_compose; [exact H1|]. apply blast_square. apply H1.
Qed.

Lemma blast_state_exploded (st : state) (row col : Z) :
  wf_state st -> blast_state (near row col) st (exploded st row col).
Proof.
  intros Hwf. unfold exploded. cbn [fold_left].
  eapply blast_state_ext; cycle 1.
  - do 9 (eapply blast_both_step). split; [now apply blast_none|apply blast_state_none].
  - intros r c _. cbv beta. unfold same_square, near.
    repeat match goal with
           | |- context [?a =? ?b] => destruct (Z.eqb_spec a b)
           end; cbn [andb orb];
      symmetry; first [ apply andb_true_iff; split; apply Z.leb_le; lia
                      | apply andb_false_iff;
                        destruct (Z.leb_spec (Z.abs (r - row)) 1); [right|left; reflexivity];
                        apply Z.leb_gt; lia ].
Qed.

(** X11. [explode_capture], called on a square of a well-formed board,
    returns, empties the on-board squares of the 3x3 neighbourhood and
    no other, keeps the turn, and never increases the number of pieces
    of any sort.  The game state it leaves is read off the kings it
    removed: unchanged when the neighbourhood held no king, BLACK_WON
    when it held a Black King and no White King, WHITE_WON when it held
    a White King and no Black King; that is, it records the colour of
    the king that was removed. *)
Theorem explode_capture_effect (st : state) (t : string) (row col : Z) :
  wf_state st ->
  position_index t = Ok (Some (row, col)) ->
  exists st',
    explode_capture t st = (Ok tt, st')
    /\ wf_state st'
    /\ _turn st' = _turn st
    /\ (forall r c, in_bounds r c ->
          cell (_board st') r c
          = if near row col r c then "."%char else cell (_board st) r c)
    /\ (forall x, x <> "."%char ->
          (count_piece x (_board st') <= count_piece x (_board st))%nat)
    /\ (~ holds_in (near row col) (_board st) "K" ->
        ~ holds_in (near row col) (_board st) "k" ->
        _current_game_state st' = _current_game_state st)
    /\ (~ holds_in (near row col) (_board st) "K" ->
        holds_in (near row col) (_board st) "k" ->
        _current_game_state st' = BLACK_WON)
    /\ (~ holds_in (near row col) (_board st) "k" ->
        holds_in (near row col) (_board st) "K" ->
        _current_game_state st' = WHITE_WON).
Proof.
  intros Hwf Ht. exists (exploded st row col).
  split; [now apply explode_capture_run|].
  destruct (blast_exploded st row col Hwf) as (H1 & H2 & H3 & H4 & _).
  destruct (blast_state_exploded st row col Hwf) as (H5 & H6 & H7).
  auto 10.
Qed.

Lemma explode_capture_effect_witness :
  exists st',
    explode_capture "e7" initial_state = (Ok tt, st')
    /\ _current_game_state st' = BLACK_WON.
Proof.
  destruct (explode_capture_effect initial_state "e7" 1 4
              wf_initial_state eq_refl)
    as (st' & H1 & _ & _ & _ & _ & _ & H2 & _).
  exists st'. split; [exact H1|]. apply H2.
  - intros (r & c & [Hr Hc] & Hn & Hx). unfold near in Hn.
    apply andb_true_iff in Hn as [Hn1 Hn2]. apply Z.leb_le in Hn1, Hn2.
    assert (Hr' : r = 0 \/ r = 1 \/ r = 2) by lia.
    assert (Hc' : c = 3 \/ c = 4 \/ c = 5) by lia.
    destruct Hr' as [-> | [-> | ->]], Hc' as [-> | [-> | ->]]; discriminate Hx.
  - exists 0, 4. repeat split; try lia; reflexivity.
Defined.

(** ** make_move *)

(** X12. On a well-formed board [make_move] returns True exactly when
    the game is unfinished and [valid_move] returns True: a valid move
    is always carried out to the end.  Every other call leaves the board,
    the turn and the game state untouched and either returns False or
    raises ValueError (from [position_index]); IndexError, TypeError and
    KeyError never escape.  The board stays well formed. *)
Theorem make_move_outcomes (st : state) (f t : string) :
  wf_state st ->
  (fst (make_move f t st) = Ok true
   <-> _current_game_state st = UNFINISHED /\ valid_move st f t = Ok true)
  /\ (fst (make_move f t st) <> Ok true ->
      snd (make_move f t st) = st
      /\ (fst (make_move f t st) = Ok false
          \/ fst (make_move f t st) = Raise ValueError))
  /\ wf_state (snd (make_move f t st)).
Proof.
  intros Hwf.
  destruct (make_move_cases st f t Hwf)
    as [[Hg E]|[(Hg & Hv & E)|[(Hg & e & Hv & E)
        |(Hg & Hv & fr & fc & tr & tc & Hf & Ht & E)]]];
    rewrite E; cbn [fst snd].
  - split; [|split; auto]. split; [discriminate|]. intros [H _]. contradiction.
  - split; [|split; auto]. split; [discriminate|]. intros [_ H]. congruence.
  - assert (e = ValueError) as ->.
    { destruct (valid_move_total st f t Hwf) as [[res H]|H]; congruence. }
    split; [|split; auto]. split; [discriminate|]. intros [_ H]. congruence.
  - split; [tauto|]. split; [intros H; now contradiction H|].
    apply after_move_wf; eauto using position_index_in_bounds.
Qed.

Lemma make_move_outcomes_witness :
  fst (make_move "e2" "e4" initial_state) = Ok true
  /\ snd (make_move "e2" "e5" initial_state) = initial_state.
Proof.
  destruct (make_move_outcomes initial_state "e2" "e4" wf_initial_state)
    as (H1 & _ & _).
  destruct (make_move_outcomes initial_state "e2" "e5" wf_initial_state)
    as (_ & H2 & _).
  split; [apply H1; split; reflexivity|apply H2; discriminate].
Defined.

Lemma promoted_cell (b : board) (p : ascii) (tr tc r c : Z) :
  wf_board b -> in_bounds tr tc -> in_bounds r c -> cell b tr tc = p ->
  cell (promoted b p tr tc) r c
  = if same_square r c tr tc then arrived p tr else cell b r c.
Proof.
  intros Hwf Ht Hi Hp. unfold promoted, arrived.
  assert (Hsame : same_square r c tr tc = true -> cell b r c = p).
  { unfold same_square. intros E. apply andb_true_iff in E as [E1 E2].
    apply Z.eqb_eq in E1, E2. now subst. }
  destruct (upper p =c? "P");
    [destruct ((isupper p && (tr =? 0)) || (islower p && (tr =? 7)));
     [now rewrite cell_upd by auto|]|];
    destruct (same_square r c tr tc); auto.
Qed.

Lemma valid_move_distinct (st : state) (f t : string) (fr fc tr tc : Z) :
  wf_state st -> valid_move st f t = Ok true ->
  position_index f = Ok (Some (fr, fc)) ->
  position_index t = Ok (Some (tr, tc)) ->
  (fr, fc) <> (tr, tc).
Proof.
  intros Hwf Hv Hf Ht [= -> ->].
  pose proof (position_index_in_bounds _ _ _ Ht) as Hi.
  pose proof (valid_cell_cell _ tr tc Hwf Hi) as Hvc.
  destruct (own_color (_turn st) (cell (_board st) tr tc)) eqn:Hown.
  - pose proof Hown as Hown'. apply own_color_holds in Hown' as [k Hk]; auto.
    rewrite (valid_move_own st k f t tr tc tr tc Hwf Hf Ht Hk), Hown in Hv.
    discriminate Hv.
  - rewrite (valid_move_foreign st f t tr tc tr tc Hwf Hf Ht) in Hv;
      [discriminate Hv|].
    intros Hh. apply own_color_holds in Hh; auto. congruence.
Qed.

Lemma after_quiet_frame (st : state) (fr fc tr tc r c : Z) :
  wf_state st -> in_bounds fr fc -> in_bounds tr tc -> in_bounds r c ->
  cell (_board st) tr tc = "."%char -> (fr, fc) <> (tr, tc) ->
  cell (_board (after_move st fr fc tr tc)) r c
  = if same_square r c tr tc then arrived (cell (_board st) fr fc) tr
    else if same_square r c fr fc then "."%char
    else cell (_board st) r c.
Proof.
  intros Hwf Hfi Hti Hi Hq Hne.
  assert (Efrom : same_square tr tc fr fc = false).
  { unfold same_square. destruct (Z.eqb_spec tr fr) as [->|]; [|reflexivity].
    destruct (Z.eqb_spec tc fc) as [->|]; [|reflexivity]. now contradiction Hne. }
  assert (Esq : same_square tr tc tr tc = true).
  { unfold same_square. now rewrite !Z.eqb_refl. }
  rewrite after_quiet_cell by auto.
  rewrite promoted_cell; auto.
  - destruct (same_square r c tr tc) eqn:Eto; [reflexivity|].
    rewrite cell_moved by auto. now rewrite Eto.
  - now apply wf_moved.
  - rewrite cell_moved by auto. now rewrite Efrom, Esq.
Qed.

(** X13. A successful [make_move] onto an empty square changes two
    squares of the board and no other: the from-square becomes empty and
    the destination receives the moving piece, or a queen of its colour
    when the piece is a pawn arriving on row 0 (White) or row 7
    (Black). *)
Theorem quiet_move_frame (st st' : state) (f t : string) (fr fc tr tc : Z) :
  wf_state st ->
  make_move f t st = (Ok true, st') ->
  position_index f = Ok (Some (fr, fc)) ->
  position_index t = Ok (Some (tr, tc)) ->
  cell (_board st) tr tc = "."%char ->
  (fr, fc) <> (tr, tc)
  /\ forall r c, in_bounds r c ->
       cell (_board st') r c
       = if same_square r c tr tc then arrived (cell (_board st) fr fc) tr
         else if same_square r c fr fc then "."%char
         else cell (_board st) r c.
Proof.
  intros Hwf H Hf Ht Hq.
  destruct (make_move_success st st' f t fr fc tr tc Hwf H Hf Ht) as (_ & Hv & ->).
  pose proof (position_index_in_bounds _ _ _ Hf) as Hfi.
  pose proof (position_index_in_bounds _ _ _ Ht) as Hti.
  pose proof (valid_move_distinct st f t fr fc tr tc Hwf Hv Hf Ht) as Hne.
  split; [exact Hne|]. intros r c Hi. now apply after_quiet_frame.
Qed.

Lemma quiet_move_frame_witness :
  cell (_board (snd (make_move "e2" "e4" initial_state))) 4 4 = "P"%char
  /\ cell (_board (snd (make_move "e2" "e4" initial_state))) 6 4 = "."%char.
Proof.
  destruct (quiet_move_frame initial_state _ "e2" "e4" 6 4 4 4
              wf_initial_state eq_refl eq_refl eq_refl eq_refl) as [_ H].
  split; [apply (H 4 4)|apply (H 6 4)]; unfold in_bounds; lia.
Defined.

Lemma count_promoted_other (x : ascii) (b : board) (p : ascii) (tr tc : Z) :
  wf_board b -> in_bounds tr tc -> x <> "Q"%char -> x <> "q"%char ->
  (count_piece x (promoted b p tr tc) <= count_piece x b)%nat.
Proof.
  intros Hwf Hin HQ Hq. unfold promoted.
  destruct (upper p =c? "P"); [|lia].
  destruct ((isupper p && (tr =? 0)) || (islower p && (tr =? 7))); [|lia].
  pose proof (count_piece_upd x (if isupper p then "Q"%char else "q"%char) b tr tc Hwf Hin) as H.
  assert (E : ((if isupper p then "Q"%char else "q"%char) =c? x) = false).
  { destruct (isupper p); apply Ascii.eqb_neq; congruence. }
  rewrite E in H. cbn [indicator] in H. lia.
Qed.

Lemma count_promoted_queen (x : ascii) (b : board) (p : ascii) (tr tc : Z) :
  wf_board b -> in_bounds tr tc ->
  (count_piece x (promoted b p tr tc) <= count_piece x b + 1)%nat.
Proof.
  intros Hwf Hin. unfold promoted.
  destruct (upper p =c? "P"); [|lia].
  destruct ((isupper p && (tr =? 0)) || (islower p && (tr =? 7))); [|lia].
  pose proof (count_piece_upd x (if isupper p then "Q"%char else "q"%char) b tr tc Hwf Hin) as H.
  pose proof (indicator_le ((if isupper p then "Q"%char else "q"%char) =c? x)). lia.
Qed.

(** X14. A successful [make_move] never adds a piece, promotion apart:
    for every sort of piece other than the two queens the number of
    squares holding it does not grow, and it drops by at least one for
    the sort that stood on the destination; the number of queens of
    either colour grows by at most one. *)
Theorem material_never_grows (st st' : state) (f t : string) (tr tc : Z)
    (x : ascii) :
  wf_state st ->
  make_move f t st = (Ok true, st') ->
  position_index t = Ok (Some (tr, tc)) ->
  x <> "."%char ->
  (x <> "Q"%char -> x <> "q"%char ->
   (count_piece x (_board st') + indicator (cell (_board st) tr tc =c? x)
    <= count_piece x (_board st))%nat)
  /\ (count_piece x (_board st') <= count_piece x (_board st) + 1)%nat.
Proof.
  intros Hwf H Ht Hx.
  destruct (make_move_success_parsed st st' f t Hwf H)
    as (fr & fc & tr' & tc' & Hf & Ht' & Hfi & Hti & _ & ->).
  rewrite Ht in Ht'. injection Ht' as <- <-.
  unfold after_move. rewrite finished_board.
  assert (Hwf1 : wf_state (with_board st (moved (_board st) fr fc tr tc))).
  { unfold wf_state. cbn [with_board _board]. now apply wf_moved. }
  pose proof (count_moved x (_board st) fr fc tr tc Hwf Hfi Hti Hx) as Hm.
  destruct (negb (cell (_board st) tr tc =c? ".")).
  - destruct (blast_exploded _ tr tc Hwf1) as (_ & _ & _ & Hn & _).
    specialize (Hn x Hx). cbn [with_board _board] in Hn. split; intros; lia.
  - cbn [with_board _board]. split.
    + intros HQ Hq.
      pose proof (count_promoted_other x (moved (_board st) fr fc tr tc)
                    (cell (_board st) fr fc) tr tc Hwf1 Hti HQ Hq). lia.
    + pose proof (count_promoted_queen x (moved (_board st) fr fc tr tc)
                    (cell (_board st) fr fc) tr tc Hwf1 Hti). lia.
Qed.

Lemma material_never_grows_witness :
  (count_piece "p" (_board (snd (make_move "e4" "d5" pawns_facing))) + 1
   <= count_piece "p" (_board pawns_facing))%nat.
Proof.
  refine (proj1 (material_never_grows pawns_facing _ "e4" "d5" 3 3 "p"
                   _ eq_refl eq_refl _) _ _); try discriminate.
  apply wf_rows_check. reflexivity.
Defined.

(** X15. Once the game state is WHITE_WON or BLACK_WON no sequence of
    calls of [make_move] changes anything: each call returns False and
    the state stays as it is, whatever the board and the strings. *)
Theorem finished_game_is_final (st : state) (ms : list (string * string)) :
  _current_game_state st <> UNFINISHED ->
  play ms st = st
  /\ Forall (fun m => make_move (fst m) (snd m) st = (Ok false, st)) ms.
Proof.
  intros Hg.
  assert (Hone : forall f t, make_move f t st = (Ok false, st)).
  { intros f t. unfold make_move. unfold bindM at 1. unfold read at 1.
    destruct (_current_game_state st); [contradiction| |]; reflexivity. }
  split.
  - induction ms as [|[f t] ms IH]; [reflexivity|].
    unfold play in *. cbn [fold_left fst snd]. rewrite Hone. exact IH.
  - apply Forall_forall. intros [f t] _. apply Hone.
Qed.

Lemma finished_game_is_final_witness :
  play [("e2", "e4"); ("a7", "a6")]%string
       (snd (make_move "g4" "g5" kings_adjacent))
  = snd (make_move "g4" "g5" kings_adjacent).
Proof.
  apply (finished_game_is_final (snd (make_move "g4" "g5" kings_adjacent))).
  discriminate.
Defined.

(** ** Reachable states *)


Lemma reachable_wf_kings (st : state) :
  reachable st -> wf_state st /\ kings_inv (_board st).
Proof.
  induction 1 as [st Hinit|st f t o st' Hreach [Hwf [HK Hk]] Hmove].
  - rewrite init_initial_state in Hinit. injection Hinit as <-.
    split; [exact wf_initial_state|]. unfold kings_inv. cbn. lia.
  - destruct (make_move_cases st f t Hwf)
      as [[_ E]|[(_ & _ & E)|[(_ & e & _ & E)
          |(_ & _ & fr & fc & tr & tc & Hf & Ht & E)]]];
      rewrite E in Hmove; injection Hmove as _ <-;
      try (split; [exact Hwf|split; assumption]).
    pose proof (position_index_in_bounds _ _ _ Hf) as Hfi.
    pose proof (position_index_in_bounds _ _ _ Ht) as Hti.
    split; [now apply after_move_wf|].
    pose proof (after_move_kings st fr fc tr tc "K" Hwf Hfi Hti (or_introl eq_refl)).
    pose proof (after_move_kings st fr fc tr tc "k" Hwf Hfi Hti (or_intror eq_refl)).
    unfold kings_inv. lia.
Qed.



Lemma arrived_not_last_rank_pawn (p : ascii) :
  arrived p 0 <> "P"%char /\ arrived p 7 <> "p"%char.
Proof.
  unfold arrived. split.
  - destruct (upper p =c? "P") eqn:Eu; [|intros ->; discriminate Eu].
    destruct (isupper p) eqn:Hu; cbn [andb orb Z.eqb Pos.eqb]; [discriminate|].
    destruct (islower p && false); [discriminate|].
    intros ->. discriminate Hu.
  - destruct (upper p =c? "P") eqn:Eu; [|intros ->; discriminate Eu].
    destruct (isupper p) eqn:Hu; cbn [andb orb Z.eqb Pos.eqb].
    + destruct (islower p && true); [discriminate|].
      intros ->. discriminate Hu.
    + destruct (islower p) eqn:Hl; cbn [andb]; [discriminate|].
      intros ->. discriminate Hl.
Qed.

(** X17. In every reachable state no White pawn stands on row 0 and no
    Black pawn on row 7: a pawn that arrives on its last row is replaced
    by a queen or destroyed by the explosion of its own capture. *)
Theorem no_pawn_on_last_rank (st : state) (c : Z) :
  reachable st -> 0 <= c < 8 ->
  cell (_board st) 0 c <> "P"%char /\ cell (_board st) 7 c <> "p"%char.
Proof.
  intros Hreach. revert c.
  induction Hreach as [st Hinit|st f t o st' Hreach IH Hmove]; intros c Hc.
  - rewrite init_initial_state in Hinit. injection Hinit as <-.
    assert (Hcs : c = 0 \/ c = 1 \/ c = 2 \/ c = 3 \/ c = 4 \/ c = 5 \/ c = 6 \/ c = 7)
      by lia.
    repeat (destruct Hcs as [-> | Hcs]; [split; discriminate|]).
    subst c. split; discriminate.
  - destruct (reachable_wf_kings st Hreach) as [Hwf _].
    destruct (make_move_cases st f t Hwf)
      as [[_ E]|[(_ & _ & E)|[(_ & e & _ & E)
          |(Hg & Hv & fr & fc & tr & tc & Hf & Ht & E)]]];
      rewrite E in Hmove; injection Hmove as _ <-;
      try (now apply IH).
    pose proof (position_index_in_bounds _ _ _ Hf) as Hfi.
    pose proof (position_index_in_bounds _ _ _ Ht) as Hti.
    destruct (IH c Hc) as [IH0 IH7].
    destruct (Ascii.eqb_spec (cell (_board st) tr tc) ".") as [Hq|Hcap].
    + pose proof (valid_move_distinct st f t fr fc tr tc Hwf Hv Hf Ht) as Hne.
      rewrite !after_quiet_frame by (auto; unfold in_bounds; lia).
      pose proof (arrived_not_last_rank_pawn (cell (_board st) fr fc)) as [A0 A7].
      split.
      * destruct (same_square 0 c tr tc) eqn:Eto.
        -- unfold same_square in Eto. apply andb_true_iff in Eto as [E1 _].
           apply Z.eqb_eq in E1. subst tr. exact A0.
        -- destruct (same_square 0 c fr fc); [discriminate|exact IH0].
      * destruct (same_square 7 c tr tc) eqn:Eto.
        -- unfold same_square in Eto. apply andb_true_iff in Eto as [E1 _].
           apply Z.eqb_eq in E1. subst tr. exact A7.
        -- destruct (same_square 7 c fr fc); [discriminate|exact IH7].
    + rewrite !after_capture_cell by (auto; unfold in_bounds; lia).
      split.
      * destruct (same_square 0 c fr fc || near tr tc 0 c); [discriminate|exact IH0].
      * destruct (same_square 7 c fr fc || near tr tc 7 c); [discriminate|exact IH7].
Qed.

(** ** print_board *)

Lemma string_app_assoc (x y z : string) : ((x ++ y) ++ z = x ++ (y ++ z))%string.
Proof. induction x as [|a x IH]; [reflexivity|]. cbn. now rewrite IH. Qed.

Lemma row_string_cells (b : board) (r : Z) (cols : list Z) (acc : string) :
  wf_board b -> 0 <= r < 8 -> Forall (fun c => 0 <= c < 8) cols ->
  row_string b r cols acc = Ok (acc ++ cells_string b r cols)%string.
Proof.
  intros Hwf Hr Hcols. revert acc.
  induction Hcols as [|c cols Hc Hcols IH]; intros acc.
  - cbn. f_equal. induction acc as [|a acc IHa]; [reflexivity|].
    cbn. now rewrite <- IHa.
  - cbn [row_string cells_string]. rewrite board_get_cell by (auto; split; auto).
    cbn [bind]. rewrite IH, string_app_assoc. reflexivity.
Qed.

Lemma range_bounds (n : nat) : Forall (fun c => 0 <= c < Z.of_nat n) (range n).
Proof.
  unfold range. apply Forall_forall. intros x Hx.
  apply list_elem_of_In, in_map_iff in Hx as (k & <- & Hk).
  apply in_seq in Hk. lia.
Qed.

Lemma print_rows_lines (b : board) (rs : list Z) (out : list string) :
  wf_board b -> Forall (fun r => 0 <= r < 8) rs ->
  print_rows b rs out = (out ++ map (row_line b) rs, Ok tt).
Proof.
  intros Hwf Hrs. revert out. induction Hrs as [|r rs Hr Hrs IH]; intros out.
  - cbn. now rewrite app_nil_r.
  - cbn [print_rows map].
    rewrite row_string_cells by (auto; apply (range_bounds 8)).
    rewrite IH. unfold row_line. rewrite <- app_assoc, string_app_assoc. reflexivity.
Qed.

Lemma print_board_lines (st : state) :
  wf_state st ->
  print_board st
  = (header :: map (row_line (_board st)) (range 8) ++ [EmptyString], Ok tt).
Proof.
  intros Hwf. unfold print_board.
  rewrite print_rows_lines by (auto; apply (range_bounds 8)). reflexivity.
Qed.

(** X18. On a well-formed board [print_board] runs to the end and
    writes ten lines: the header of column letters, one line per row
    from row 0 down to row 7, and an empty line.  The line of row r
    starts with a rank digit and shows the cell of column c at offset
    2 + 2c, under the column letter at the same offset of the header;
    that letter followed by that digit is the string [position_index]
    maps to (r, c).  So the picture and the coordinates the engine
    accepts agree. *)
Theorem print_board_layout (st : state) (r c : Z) :
  wf_state st -> in_bounds r c ->
  exists lines line p0 p1,
    print_board st = (lines, Ok tt)
    /\ length lines = 10%nat
    /\ lines !! 0%nat = Some header
    /\ lines !! 9%nat = Some EmptyString
    /\ lines !! Z.to_nat (r + 1) = Some line
    /\ String.length line = 18%nat
    /\ String.get 0 line = Some p1
    /\ String.get (Z.to_nat (2 + 2 * c)) header = Some p0
    /\ String.get (Z.to_nat (2 + 2 * c)) line = Some (cell (_board st) r c)
    /\ position_index (String p0 (String p1 EmptyString)) = Ok (Some (r, c)).
Proof.
  intros Hwf [Hr Hc].
  exists (header :: map (row_line (_board st)) (range 8) ++ [EmptyString]),
         (row_line (_board st) r).
  assert (Hrs : r = 0 \/ r = 1 \/ r = 2 \/ r = 3 \/ r = 4 \/ r = 5 \/ r = 6 \/ r = 7)
    by lia.
  assert (Hcs : c = 0 \/ c = 1 \/ c = 2 \/ c = 3 \/ c = 4 \/ c = 5 \/ c = 6 \/ c = 7)
    by lia.
  rewrite print_board_lines by exact Hwf.
  destruct Hrs as [-> | [-> | [-> | [-> | [-> | [-> | [-> | ->]]]]]]];
    destruct Hcs as [-> | [-> | [-> | [-> | [-> | [-> | [-> | ->]]]]]]];
    eexists _, _; repeat split; reflexivity.
Qed.

Lemma print_board_layout_witness :
  exists lines,
    print_board initial_state = (lines, Ok tt)
    /\ lines !! 8%nat = Some "1 R N B Q K B N R "%string.
Proof.
  destruct (print_board_layout initial_state 7 0 wf_initial_state)
    as (lines & line & p0 & p1 & H1 & _); [unfold in_bounds; lia|].
  exists lines. split; [exact H1|].
  injection H1 as <-. reflexivity.
Defined.

Lemma no_pawn_on_last_rank_witness :
  cell (_board kings_adjacent) 0 4 <> "P"%char
  /\ cell (_board kings_adjacent) 7 4 <> "p"%char.
Proof.
  apply (no_pawn_on_last_rank kings_adjacent 4); [|lia].
  change kings_adjacent
    with (play [("e2", "e4"); ("e7", "e5"); ("e1", "e2"); ("e8", "e7");
                ("e2", "f3"); ("e7", "f6"); ("f3", "g4"); ("f6", "g5")]%string
               initial_state).
  apply reachable_play. apply reachable_init. reflexivity.
Defined.

(** ** Material *)

Lemma valid_move_mover (st : state) (f t : string) (fr fc tr tc : Z) :
  wf_state st -> valid_move st f t = Ok true ->
  position_index f = Ok (Some (fr, fc)) ->
  position_index t = Ok (Some (tr, tc)) ->
  own_color (_turn st) (cell (_board st) fr fc) = true.
Proof.
  intros Hwf Hv Hf Ht.
  pose proof (position_index_in_bounds _ _ _ Hf) as Hi.
  pose proof (valid_cell_cell _ fr fc Hwf Hi) as Hvc.
  destruct (own_color (_turn st) (cell (_board st) fr fc)) eqn:Hown; [reflexivity|].
  rewrite (valid_move_foreign st f t fr fc tr tc Hwf Hf Ht) in Hv; [discriminate Hv|].
  intros Hh. apply own_color_holds in Hh; auto. congruence.
Qed.

Lemma blast_empties_step (P : Z -> Z -> bool) (st st1 : state) (r c : Z) :
  blast P st st1 -> blast_empties P st st1 ->
  blast_empties (fun r' c' => P r' c' || same_square r' c' r c) st
    (exploded_square st1 r c).
Proof.
  intros (Hwf1 & _ & Hcell & _ & _) [Hle Hlt].
  unfold blast_empties, exploded_square.
  destruct (on_board r c) eqn:Hon; cbn [andb].
  - apply on_board_in_bounds in Hon.
    destruct (Ascii.eqb_spec (cell (_board st1) r c) ".") as [Hdot|Hdot]; cbn [negb].
    + split; [exact Hle|]. intros (r' & c' & Hi & HP & Hx). apply Hlt.
      destruct (P r' c') eqn:EP; [exists r', c'; auto|].
      cbn [orb] in HP. unfold same_square in HP.
      apply andb_true_iff in HP as [E1 E2]. apply Z.eqb_eq in E1, E2. subst r' c'.
      exfalso. rewrite Hcell, EP in Hdot by auto. contradiction.
    + cbn [_board].
      pose proof (count_piece_upd "." "." (_board st1) r c Hwf1 Hon) as Hc.
      assert (E : (cell (_board st1) r c =c? ".") = false)
        by now apply Ascii.eqb_neq.
      rewrite E in Hc. cbn [indicator Ascii.eqb Bool.eqb] in Hc. split; intros; lia.
  - split; [exact Hle|]. intros (r' & c' & Hi & HP & Hx). apply Hlt.
    destruct (P r' c') eqn:EP; [exists r', c'; auto|].
    cbn [orb] in HP. unfold same_square in HP.
    apply andb_true_iff in HP as [E1 E2]. apply Z.eqb_eq in E1, E2. subst r' c'.
    apply on_board_in_bounds in Hi. congruence.
Qed.

Lemma blast_pair_step (P : Z -> Z -> bool) (st st1 : state) (r c : Z) :
  blast P st st1 /\ blast_empties P st st1 ->
  blast (fun r' c' => P r' c' || same_square r' c' r c) st (exploded_square st1 r c)
  /\ blast_empties (fun r' c' => P r' c' || same_square r' c' r c) st
       (exploded_square st1 r c).
Proof.
  intros [H1 H2]. split; [|now apply blast_empties_step].
  eapply blast_compose; [exact H1|]. apply blast_square. apply H1.
Qed.

Lemma blast_pair_hit (P : Z -> Z -> bool) (st st' : state) (row col : Z) :
  blast P st st' /\ blast_empties P st st' ->
  in_bounds row col -> P row col = true ->
  cell (_board st) row col <> "."%char ->
  (count_piece "." (_board st) + 1 <= count_piece "." (_board st'))%nat.
Proof.
  intros [_ [_ H]] Hin HP Hx. apply H. exists row, col. auto.
Qed.

Lemma blast_empties_exploded (st : state) (row col : Z) :
  wf_state st -> in_bounds row col ->
  cell (_board st) row col <> "."%char ->
  (count_piece "." (_board st) + 1 <= count_piece "." (_board (exploded st row col)))%nat.
Proof.
  intros Hwf Hin Hx. unfold exploded. cbn [fold_left].
  eapply blast_pair_hit; [| exact Hin | | exact Hx].
  - do 9 eapply blast_pair_step. split; [now apply blast_none|]. split; [lia|].
    intros (r & c & _ & H & _). discriminate H.
  - cbv beta. unfold same_square. rewrite !Z.add_0_r, !Z.eqb_refl. cbn [andb].
    repeat (rewrite ?orb_true_r; cbn [orb]). reflexivity.
Qed.

(** X19. The number of empty squares after a successful [make_move] on
    a well-formed board: a move onto an empty square leaves it as it
    was (promotion included), and a capture raises it by at least two,
    the captured piece and the capturing piece both being removed. *)
Theorem capture_removes_two (st st' : state) (f t : string) (tr tc : Z) :
  wf_state st ->
  make_move f t st = (Ok true, st') ->
  position_index t = Ok (Some (tr, tc)) ->
  (cell (_board st) tr tc = "."%char ->
   count_piece "." (_board st') = count_piece "." (_board st))
  /\ (cell (_board st) tr tc <> "."%char ->
      (count_piece "." (_board st) + 2 <= count_piece "." (_board st'))%nat).
Proof.
  intros Hwf H Ht.
  destruct (make_move_cases st f t Hwf)
    as [[_ E]|[(_ & _ & E)|[(_ & e & _ & E)
        |(_ & Hv & fr & fc & tr' & tc' & Hf & Ht' & E)]]];
    rewrite E in H; try discriminate H.
  injection H as <-. rewrite Ht in Ht'. injection Ht' as <- <-.
  pose proof (position_index_in_bounds _ _ _ Hf) as Hfi.
  pose proof (position_index_in_bounds _ _ _ Ht) as Hti.
  pose proof (valid_move_distinct st f t fr fc tr tc Hwf Hv Hf Ht) as Hne.
  pose proof (valid_move_mover st f t fr fc tr tc Hwf Hv Hf Ht) as Hown.
  apply own_color_not_dot in Hown.
  assert (Hwf1 : wf_state (with_board st (moved (_board st) fr fc tr tc))).
  { unfold wf_state. cbn [with_board _board]. now apply wf_moved. }
  pose proof (valid_cell_cell _ fr fc Hwf Hfi) as Hvc.
  pose proof (wf_upd _ tr tc _ Hwf Hvc) as Hwfu.
  pose proof (count_piece_upd "." (cell (_board st) fr fc) (_board st) tr tc Hwf Hti) as C1.
  pose proof (count_piece_upd "." "." _ fr fc Hwfu Hfi) as C2.
  rewrite cell_upd in C2 by auto.
  assert (Efrom : same_square fr fc tr tc = false).
  { unfold same_square. destruct (Z.eqb_spec fr tr) as [->|]; [|reflexivity].
    destruct (Z.eqb_spec fc tc) as [->|]; [|reflexivity]. now contradiction Hne. }
  rewrite Efrom, Hown in C2. rewrite Hown in C1.
  cbn [indicator Ascii.eqb Bool.eqb] in C1, C2. fold (moved (_board st) fr fc tr tc) in C2.
  assert (Esq : same_square tr tc tr tc = true).
  { unfold same_square. now rewrite !Z.eqb_refl. }
  assert (Hto : cell (moved (_board st) fr fc tr tc) tr tc = cell (_board st) fr fc).
  { rewrite cell_moved by auto. unfold same_square in *.
    destruct (Z.eqb_spec tr fr) as [->|]; cbn [andb]; [|now rewrite !Z.eqb_refl].
    destruct (Z.eqb_spec tc fc) as [->|]; cbn [andb]; [|now rewrite !Z.eqb_refl].
    now contradiction Hne. }
  unfold after_move. rewrite finished_board. split.
  - intros Hq. rewrite Hq in *. cbn [negb Ascii.eqb Bool.eqb indicator] in *.
    cbn [with_board _board]. unfold promoted.
    destruct (upper (cell (_board st) fr fc) =c? "P"); [|lia].
    destruct ((isupper (cell (_board st) fr fc) && (tr =? 0))
              || (islower (cell (_board st) fr fc) && (tr =? 7))); [|lia].
    pose proof (count_piece_upd "."
                  (if isupper (cell (_board st) fr fc) then "Q"%char else "q"%char)
                  _ tr tc Hwf1 Hti) as C3.
    cbn [with_board _board] in C3. rewrite Hto, Hown in C3.
    assert (EQ : ((if isupper (cell (_board st) fr fc) then "Q"%char else "q"%char)
                  =c? ".") = false)
      by (destruct (isupper (cell (_board st) fr fc)); reflexivity).
    rewrite EQ in C3. cbn [indicator] in C3. lia.
  - intros Hcap.
    assert (Ecap : (cell (_board st) tr tc =c? ".") = false)
      by now apply Ascii.eqb_neq.
    rewrite Ecap in *. cbn [negb indicator] in *.
    pose proof (blast_empties_exploded _ tr tc Hwf1 Hti) as C3.
    cbn [with_board _board] in C3. rewrite Hto in C3.
    assert (Hnd : cell (_board st) fr fc <> "."%char) by now apply Ascii.eqb_neq.
    specialize (C3 Hnd). lia.
Qed.

Lemma capture_removes_two_witness :
  (count_piece "." (_board pawns_facing) + 2
   <= count_piece "." (_board (snd (make_move "e4" "d5" pawns_facing))))%nat.
Proof.
  refine (proj2 (capture_removes_two pawns_facing _ "e4" "d5" 3 3 _ eq_refl eq_refl) _).
  - apply wf_rows_check. reflexivity.
  - discriminate.
Defined.
